(** * Server-side drawing state of the collaborative canvas

    A shallow embedding of [src/server/drawing-state.ts] (class
    [DrawingState]) and of the types of [src/shared/types.ts].

    - JavaScript objects have identity: a [DrawingOperation] created by
      [startDraw] is the very object that [addPoint] later mutates with
      [points.push] and that [endDraw] pushes on [operations].  Operation
      objects therefore live in a store ([objs]) and the room arrays hold
      references ([ref]) into it.
    - [states] is the [Map<string, RoomState>] of the class.
    - [uuidv4()] and [Date.now()] are readings of the environment; every
      call that may perform them receives the values read as arguments.
    - [number] fields are only stored and compared, never computed with;
      they are integers here.

    After the class come its users: [getOperation], the room manager
    (rooms.ts), the connection handler of the server (server.ts), and the
    part of the client that replays the server's events (canvas.ts,
    websocket.ts). *)

From stdpp Require Import gmap strings list fin_maps sorting.
From Stdlib Require Import ZArith.

Local Open Scope Z_scope.
Local Open Scope string_scope.
Local Open Scope list_scope.

(** ** Shared types *)

Record Point := { x : Z; y : Z }.

Record DrawingOperation := {
  id : string;
  userId : string;
  tool : string;
  color : string;
  strokeWidth : Z;
  points : list Point;
  timestamp : Z
}.

(** The [data] argument of [startDraw]. *)
Record DrawData := {
  data_x : Z;
  data_y : Z;
  data_tool : string;
  data_color : string;
  data_strokeWidth : Z
}.

(** A reference to an operation object of the store. *)
Definition ref := nat.

Record RoomState := {
  operations : list ref;
  undoStack : list ref;
  redoStack : list ref;
  currentOperation : option ref
}.

Record DrawingState := {
  states : gmap string RoomState;
  objs : list DrawingOperation
}.

Definition emptyRoom : RoomState :=
  {| operations := []; undoStack := []; redoStack := [];
     currentOperation := None |}.

(** [new DrawingState()] *)
Definition newDrawingState : DrawingState :=
  {| states := ∅; objs := [] |}.

(** ** Store and array primitives *)

(** An object literal evaluated: the new object gets the next reference. *)
Definition alloc (op : DrawingOperation) (ds : DrawingState)
  : ref * DrawingState :=
  (length (objs ds), {| states := states ds; objs := objs ds ++ [op] |}).

Definition deref (ds : DrawingState) (l : ref) : option DrawingOperation :=
  objs ds !! l.

(** Writes through the room object held by [states] under [roomId]. *)
Definition setRoomState (roomId : string) (st : RoomState) (ds : DrawingState)
  : DrawingState :=
  {| states := <[roomId := st]> (states ds); objs := objs ds |}.

(** [op.points.push(p)] on the object behind [l]. *)
Definition pushPoint (l : ref) (p : Point) (ds : DrawingState)
  : DrawingState :=
  match objs ds !! l with
  | Some op =>
      {| states := states ds;
         objs := <[l := {| id := id op; userId := userId op; tool := tool op;
                           color := color op; strokeWidth := strokeWidth op;
                           points := points op ++ [p];
                           timestamp := timestamp op |}]> (objs ds) |}
  | None => ds
  end.

(** [Array.prototype.pop]: the last element ([None] is [undefined]) and the
    array without it. *)
Fixpoint array_pop {A} (a : list A) : option A * list A :=
  match a with
  | [] => (None, [])
  | [v] => (Some v, [])
  | v :: rest => let '(r, rest') := array_pop rest in (r, v :: rest')
  end.

(** ** The class [DrawingState] *)

Definition getRoomState (roomId : string) (ds : DrawingState)
  : RoomState * DrawingState :=
  match states ds !! roomId with
  | Some st => (st, ds)
  | None => (emptyRoom, setRoomState roomId emptyRoom ds)
  end.

Definition startDraw (roomId userId : string) (data : DrawData)
    (uuid : string) (now : Z) (ds : DrawingState) : ref * DrawingState :=
  let '(state, ds) := getRoomState roomId ds in
  let '(operation, ds) :=
    alloc {| id := uuid; userId := userId; tool := data_tool data;
             color := data_color data;
             strokeWidth := data_strokeWidth data;
             points := [{| x := data_x data; y := data_y data |}];
             timestamp := now |} ds in
  (operation,
   setRoomState roomId
     {| operations := operations state; undoStack := undoStack state;
        redoStack := []; currentOperation := Some operation |} ds).

(** The guard [state.currentOperation && state.currentOperation.userId ===
    userId] of [addPoint] and [endDraw]: the current operation when the guard
    holds.  A reference outside the store does not occur in a state built by
    the class (see [wf_run]). *)
Definition currentOf (state : RoomState) (user : string)
    (ds : DrawingState) : option ref :=
  match currentOperation state with
  | Some l =>
      match deref ds l with
      | Some op => if String.eqb (userId op) user then Some l else None
      | None => None
      end
  | None => None
  end.

Definition addPoint (roomId userId : string) (x y : Z)
    (uuid : string) (now : Z) (ds : DrawingState) : ref * DrawingState :=
  let '(state, ds) := getRoomState roomId ds in
  match currentOf state userId ds with
  | Some l => (l, pushPoint l {| x := x; y := y |} ds)
  | None =>
      let '(operation, ds) :=
        alloc {| id := uuid; userId := userId; tool := "brush";
                 color := "#000000"; strokeWidth := 5;
                 points := [{| x := x; y := y |}];
                 timestamp := now |} ds in
      (operation,
       setRoomState roomId
         {| operations := operations state; undoStack := undoStack state;
            redoStack := redoStack state;
            currentOperation := Some operation |} ds)
  end.

Definition endDraw (roomId userId : string) (ds : DrawingState)
  : option ref * DrawingState :=
  let '(state, ds) := getRoomState roomId ds in
  match currentOf state userId ds with
  | Some operation =>
      (Some operation,
       setRoomState roomId
         {| operations := operations state ++ [operation];
            undoStack := undoStack state; redoStack := redoStack state;
            currentOperation := None |} ds)
  | None => (None, ds)
  end.

Definition undo (roomId : string) (ds : DrawingState)
  : option ref * DrawingState :=
  let '(state, ds) := getRoomState roomId ds in
  if Nat.eqb (length (operations state)) 0 then (None, ds)
  else
    match array_pop (operations state) with
    | (Some operation, rest) =>
        (Some operation,
         setRoomState roomId
           {| operations := rest;
              undoStack := undoStack state ++ [operation];
              redoStack := redoStack state;
              currentOperation := currentOperation state |} ds)
    | (None, _) => (None, ds)
    end.

Definition redo (roomId : string) (ds : DrawingState)
  : option ref * DrawingState :=
  let '(state, ds) := getRoomState roomId ds in
  if Nat.eqb (length (undoStack state)) 0 then (None, ds)
  else
    match array_pop (undoStack state) with
    | (Some operation, rest) =>
        (Some operation,
         setRoomState roomId
           {| operations := operations state ++ [operation];
              undoStack := rest;
              redoStack := redoStack state;
              currentOperation := currentOperation state |} ds)
    | (None, _) => (None, ds)
    end.

Definition clear (roomId : string) (ds : DrawingState) : DrawingState :=
  let '(state, ds) := getRoomState roomId ds in
  setRoomState roomId
    {| operations := []; undoStack := []; redoStack := [];
       currentOperation := None |} ds.

(** [[...state.operations]]: a new array holding the same references. *)
Definition getState (roomId : string) (ds : DrawingState)
  : list ref * DrawingState :=
  let '(state, ds) := getRoomState roomId ds in
  (operations state, ds).

(** ** Calls and runs

    The server calls the methods one at a time (one event handler runs to
    completion before the next); a run is the list of calls in the order in
    which they are served. *)

Inductive call :=
| StartDraw (roomId userId : string) (data : DrawData) (uuid : string)
    (now : Z)
| AddPoint (roomId userId : string) (x y : Z) (uuid : string) (now : Z)
| EndDraw (roomId userId : string)
| Undo (roomId : string)
| Redo (roomId : string)
| Clear (roomId : string)
| GetState (roomId : string).

Definition step (ds : DrawingState) (c : call) : DrawingState :=
  match c with
  | StartDraw r u d i t => (startDraw r u d i t ds).2
  | AddPoint r u px py i t => (addPoint r u px py i t ds).2
  | EndDraw r u => (endDraw r u ds).2
  | Undo r => (undo r ds).2
  | Redo r => (redo r ds).2
  | Clear r => clear r ds
  | GetState r => (getState r ds).2
  end.

Definition run (cs : list call) (ds : DrawingState) : DrawingState :=
  foldl step ds cs.

(** ** Observations *)

(** The room object [getRoomState] hands out. *)
Definition room (ds : DrawingState) (roomId : string) : RoomState :=
  (getRoomState roomId ds).1.

(** The operation objects behind an array of references. *)
Definition contents (ds : DrawingState) (a : list ref)
  : list DrawingOperation :=
  omap (deref ds) a.

(** The committed log of a room, as [getState] shows it to a client. *)
Definition committed (ds : DrawingState) (roomId : string)
  : list DrawingOperation :=
  contents ds (operations (room ds roomId)).

Definition stamps (ds : DrawingState) : list Z := timestamp <$> objs ds.

(** The calls that read the clock, with the reading. *)
Definition clockReading (c : call) : option Z :=
  match c with
  | StartDraw _ _ _ _ t | AddPoint _ _ _ _ _ t => Some t
  | _ => None
  end.

(** The calls that read [uuidv4()], with the value read. *)
Definition uuidReading (c : call) : option string :=
  match c with
  | StartDraw _ _ _ i _ | AddPoint _ _ _ _ i _ => Some i
  | _ => None
  end.

(** Every clock reading of the run is at least [lo] and at least the
    readings before it. *)
Fixpoint clockMonotone (lo : Z) (cs : list call) : bool :=
  match cs with
  | [] => true
  | c :: cs' =>
      match clockReading c with
      | Some t => Z.leb lo t && clockMonotone t cs'
      | None => clockMonotone lo cs'
      end
  end.

Definition isRedo (c : call) : bool :=
  match c with Redo _ => true | _ => false end.

Definition isEndDrawOf (roomId user : string) (c : call) : bool :=
  match c with
  | EndDraw r u => String.eqb r roomId && String.eqb u user
  | _ => false
  end.

(** The object literals of [startDraw] and of the fallback of [addPoint]. *)
Definition startOp (user : string) (data : DrawData) (uuid : string)
    (now : Z) : DrawingOperation :=
  {| id := uuid; userId := user; tool := data_tool data;
     color := data_color data; strokeWidth := data_strokeWidth data;
     points := [{| x := data_x data; y := data_y data |}];
     timestamp := now |}.

Definition fallbackOp (user : string) (px py : Z) (uuid : string) (now : Z)
  : DrawingOperation :=
  {| id := uuid; userId := user; tool := "brush"; color := "#000000";
     strokeWidth := 5; points := [{| x := px; y := py |}];
     timestamp := now |}.

Definition withPoint (op : DrawingOperation) (p : Point) : DrawingOperation :=
  {| id := id op; userId := userId op; tool := tool op; color := color op;
     strokeWidth := strokeWidth op; points := points op ++ [p];
     timestamp := timestamp op |}.


(** * The effect of one call

    Every call has one of seven effects on the store and the rooms; the
    invariants below are proved by cases on them. *)

Definition held (st : RoomState) : list ref := operations st ++ undoStack st.

Inductive effect (c : call) (ds ds' : DrawingState) : Prop :=
| eff_skip :
    objs ds' = objs ds →
    (∀ r', room ds' r' = room ds r') →
    effect c ds ds'
| eff_create r op rs :
    clockReading c = Some (timestamp op) →
    uuidReading c = Some (id op) →
    points op ≠ [] →
    objs ds' = objs ds ++ [op] →
    (∀ r', room ds' r' =
       if decide (r = r') then
         {| operations := operations (room ds r);
            undoStack := undoStack (room ds r);
            redoStack := rs;
            currentOperation := Some (length (objs ds)) |}
       else room ds r') →
    effect c ds ds'
| eff_push r l op p :
    currentOperation (room ds r) = Some l →
    deref ds l = Some op →
    objs ds' = <[l := withPoint op p]> (objs ds) →
    (∀ r', room ds' r' = room ds r') →
    effect c ds ds'
| eff_commit r l op :
    c = EndDraw r (userId op) →
    currentOperation (room ds r) = Some l →
    deref ds l = Some op →
    objs ds' = objs ds →
    (∀ r', room ds' r' =
       if decide (r = r') then
         {| operations := operations (room ds r) ++ [l];
            undoStack := undoStack (room ds r);
            redoStack := redoStack (room ds r);
            currentOperation := None |}
       else room ds r') →
    effect c ds ds'
| eff_undo r a l :
    operations (room ds r) = a ++ [l] →
    objs ds' = objs ds →
    (∀ r', room ds' r' =
       if decide (r = r') then
         {| operations := a;
            undoStack := undoStack (room ds r) ++ [l];
            redoStack := redoStack (room ds r);
            currentOperation := currentOperation (room ds r) |}
       else room ds r') →
    effect c ds ds'
| eff_redo r a l :
    c = Redo r →
    undoStack (room ds r) = a ++ [l] →
    objs ds' = objs ds →
    (∀ r', room ds' r' =
       if decide (r = r') then
         {| operations := operations (room ds r) ++ [l];
            undoStack := a;
            redoStack := redoStack (room ds r);
            currentOperation := currentOperation (room ds r) |}
       else room ds r') →
    effect c ds ds'
| eff_clear r :
    objs ds' = objs ds →
    (∀ r', room ds' r' = if decide (r = r') then emptyRoom else room ds r') →
    effect c ds ds'.


(** * Invariants of the states the class builds *)

Record wf (ds : DrawingState) : Prop := {
  (* references point into the store *)
  wf_held : ∀ r l, l ∈ held (room ds r) → (l < length (objs ds))%nat;
  wf_current : ∀ r l,
    currentOperation (room ds r) = Some l → (l < length (objs ds))%nat;
  (* the current operation of a room is its newest object *)
  wf_newest : ∀ r c l,
    currentOperation (room ds r) = Some c → l ∈ held (room ds r) →
    (l < c)%nat;
  (* a current operation is in no array, and current in one room only *)
  wf_apart : ∀ r r' c,
    currentOperation (room ds r) = Some c → c ∉ held (room ds r');
  wf_one_room : ∀ r r' c,
    currentOperation (room ds r) = Some c →
    currentOperation (room ds r') = Some c → r = r'
}.

(** An object that is no room's current operation. *)
Definition notCurrent (ds : DrawingState) (l : ref) : Prop :=
  (l < length (objs ds))%nat ∧ ∀ r, currentOperation (room ds r) ≠ Some l.

(** The stroke [l] that [user] began in room [roomId] and has not ended: it is
    in no array, and no other room has it as current operation. *)
Definition pending (roomId user : string) (l : ref) (ds : DrawingState)
  : Prop :=
  (∃ op, deref ds l = Some op ∧ userId op = user) ∧
  (∀ r', l ∉ held (room ds r')) ∧
  (∀ r', currentOperation (room ds r') = Some l → r' = roomId).

(** The timestamps of the store never decrease along the references and are
    at most [hi]. *)
Definition clockInv (hi : Z) (ds : DrawingState) : Prop :=
  StronglySorted Z.le (stamps ds) ∧ Forall (λ t, (t ≤ hi)%Z) (stamps ds).

(** Every committed log lists its operations in the order of their
    creation. *)
Definition opsAscending (ds : DrawingState) : Prop :=
  ∀ r, StronglySorted lt (operations (room ds r)).

(** ** Runs used as examples *)

Definition brushAt (px py : Z) : DrawData :=
  {| data_x := px; data_y := py; data_tool := "brush";
     data_color := "#ff0000"; data_strokeWidth := 3 |}.

(** The points [user] sent to [roomId] in a run, in the order sent. *)
Definition submitted (roomId user : string) (cs : list call) : list Point :=
  omap (λ c,
    match c with
    | StartDraw r u d _ _ =>
        if String.eqb r roomId && String.eqb u user
        then Some {| x := data_x d; y := data_y d |} else None
    | AddPoint r u px py _ _ =>
        if String.eqb r roomId && String.eqb u user
        then Some {| x := px; y := py |} else None
    | _ => None
    end) cs.

(** The committed strokes of [user] in [roomId]. *)
Definition strokesOf (ds : DrawingState) (roomId user : string)
  : list DrawingOperation :=
  filter (λ op, userId op = user) (committed ds roomId).

(** A and B draw at the same time: A begins, B begins, A moves, both end. *)
Definition twoUsers : list call :=
  [ StartDraw "room" "A" (brushAt 0 0) "id-1" 1;
    StartDraw "room" "B" (brushAt 5 5) "id-2" 2;
    AddPoint "room" "A" 10 10 "id-3" 3;
    EndDraw "room" "A";
    EndDraw "room" "B" ].

(** A draws a stroke, undoes it, and draws a second stroke up to its end. *)
Definition strokeAfterUndo : list call :=
  [ StartDraw "room" "A" (brushAt 0 0) "id-1" 1;
    EndDraw "room" "A";
    Undo "room";
    StartDraw "room" "A" (brushAt 1 1) "id-2" 2 ].

(** A draws one complete stroke. *)
Definition oneStroke : list call :=
  [ StartDraw "room" "A" (brushAt 0 0) "id-1" 1;
    AddPoint "room" "A" 10 10 "id-2" 2;
    EndDraw "room" "A" ].

(** A begins a stroke and does not end it. *)
Definition begun : list call :=
  [ StartDraw "room" "A" (brushAt 0 0) "id-1" 1 ].

(** Two strokes whose second clock reading is behind the first. *)
Definition clockSetBack : list call :=
  [ StartDraw "room" "A" (brushAt 0 0) "id-1" 10;
    EndDraw "room" "A";
    StartDraw "room" "A" (brushAt 1 1) "id-2" 5 ].

(** Three strokes under an advancing clock; the second is undone before the
    third and redone after it. *)
Definition redoneLate : list call :=
  [ StartDraw "room" "A" (brushAt 0 0) "id-1" 1; EndDraw "room" "A";
    StartDraw "room" "A" (brushAt 1 1) "id-2" 2; EndDraw "room" "A";
    Undo "room";
    StartDraw "room" "B" (brushAt 2 2) "id-3" 3; EndDraw "room" "B";
    Redo "room" ].

(** ** [getOperation] *)

(** The test [op => op.id === operationId] on the object behind [l]. *)
Definition hasId (ds : DrawingState) (operationId : string) (l : ref) : bool :=
  match deref ds l with
  | Some op => String.eqb (id op) operationId
  | None => false
  end.

(** [a.find(..) || b.find(..)]: an object is truthy, so the second array is
    searched exactly when the first has no match; [None] is [undefined]. *)
Definition getOperation (roomId operationId : string) (ds : DrawingState)
  : option ref * DrawingState :=
  let '(state, ds) := getRoomState roomId ds in
  match List.find (hasId ds operationId) (operations state) with
  | Some l => (Some l, ds)
  | None => (List.find (hasId ds operationId) (undoStack state), ds)
  end.

(** The room a call is made on. *)
Definition roomOf (c : call) : string :=
  match c with
  | StartDraw r _ _ _ _ | AddPoint r _ _ _ _ _ | EndDraw r _
  | Undo r | Redo r | Clear r | GetState r => r
  end.

(** No reference is held twice by a room, and no two rooms hold the same
    reference. *)
Definition heldOnce (ds : DrawingState) : Prop :=
  (∀ r, NoDup (held (room ds r))) ∧
  (∀ r r' l, l ∈ held (room ds r) → l ∈ held (room ds r') → r = r').

(** Every object of the store has at least one point. *)
Definition allDrawn (ds : DrawingState) : Prop :=
  Forall (λ op, points op ≠ []) (objs ds).

(** A call that is an [addPoint] of [user] in [roomId], or is made on
    another room. *)
Definition ownOrElsewhere (roomId user : string) (c : call) : bool :=
  match c with
  | AddPoint r u _ _ _ _ => negb (String.eqb r roomId) || String.eqb u user
  | _ => negb (String.eqb (roomOf c) roomId)
  end.

(** Two objects that differ at most in their points. *)
Definition sameStroke (op op' : DrawingOperation) : Prop :=
  id op' = id op ∧ userId op' = userId op ∧ tool op' = tool op ∧
  color op' = color op ∧ strokeWidth op' = strokeWidth op ∧
  timestamp op' = timestamp op.

(** * JavaScript maps with string keys

    A [Map] keeps its keys in the order of their first insertion, and
    [values()] follows that order: a map is the list of its entries. *)

Module JsMap.

(** [Map.prototype.set]: a present key keeps its place and gets the new
    value, a new key goes to the end. *)
Fixpoint map_set {V} (k : string) (v : V) (m : list (string * V))
  : list (string * V) :=
  match m with
  | [] => [(k, v)]
  | (k', v') :: m' =>
      if String.eqb k' k then (k, v) :: m' else (k', v') :: map_set k v m'
  end.

(** [Map.prototype.get]; [None] is [undefined]. *)
Fixpoint map_get {V} (k : string) (m : list (string * V)) : option V :=
  match m with
  | [] => None
  | (k', v') :: m' => if String.eqb k' k then Some v' else map_get k m'
  end.

(** [Map.prototype.delete] *)
Fixpoint map_delete {V} (k : string) (m : list (string * V))
  : list (string * V) :=
  match m with
  | [] => []
  | (k', v') :: m' =>
      if String.eqb k' k then m' else (k', v') :: map_delete k m'
  end.

End JsMap.

(** * The room manager

    A shallow embedding of class [RoomManager] (rooms.ts, compiled to
    [src/dist/server/rooms.js]).  A JavaScript [Map] keeps its keys in the
    order of their first insertion and [Array.from(room.values())] follows
    that order, so the users of a room are a [JsMap]; the outer map is
    looked up by key only. *)

Module Rooms.

Record User := { id : string; name : string; color : string }.

Definition joinRoom (roomId userId userName userColor : string)
    (rooms : gmap string (list (string * User)))
  : gmap string (list (string * User)) :=
  let rooms :=
    match rooms !! roomId with
    | Some _ => rooms
    | None => <[roomId := []]> rooms
    end in
  match rooms !! roomId with
  | Some room =>
      <[roomId := JsMap.map_set userId
                    {| id := userId; name := userName; color := userColor |}
                    room]> rooms
  | None => rooms
  end.

Definition leaveRoom (roomId userId : string)
    (rooms : gmap string (list (string * User)))
  : gmap string (list (string * User)) :=
  match rooms !! roomId with
  | Some room =>
      let room := JsMap.map_delete userId room in
      if Nat.eqb (length room) 0 then delete roomId rooms
      else <[roomId := room]> rooms
  | None => rooms
  end.

Definition getRoomUsers (roomId : string)
    (rooms : gmap string (list (string * User))) : list User :=
  match rooms !! roomId with
  | None => []
  | Some room => room.*2
  end.

Definition getUser (roomId userId : string)
    (rooms : gmap string (list (string * User))) : option User :=
  match rooms !! roomId with
  | Some room => JsMap.map_get userId room
  | None => None
  end.

(** [new RoomManager()] *)
Definition newRoomManager : gmap string (list (string * User)) := ∅.

Inductive call :=
| JoinRoom (roomId userId userName userColor : string)
| LeaveRoom (roomId userId : string).

Definition step (rooms : gmap string (list (string * User))) (c : call)
  : gmap string (list (string * User)) :=
  match c with
  | JoinRoom r u n c => joinRoom r u n c rooms
  | LeaveRoom r u => leaveRoom r u rooms
  end.

Definition run (cs : list call) (rooms : gmap string (list (string * User)))
  : gmap string (list (string * User)) :=
  foldl step rooms cs.

(** What holds of every room the class keeps: it has a member, no user id is
    a key twice, and every user is stored under its own id. *)
Definition roomOk (room : list (string * User)) : Prop :=
  room ≠ [] ∧ NoDup room.*1 ∧ Forall (λ kv, id kv.2 = kv.1) room.

Definition wf (rooms : gmap string (list (string * User))) : Prop :=
  ∀ r room, rooms !! r = Some room → roomOk room.

End Rooms.

(** * The server

    A shallow embedding of the connection handler of server.ts
    ([src/unnamed/part_000], compiled in the tail of [src/ARCHITECTURE.md]).
    The handlers of one socket close over [userId] (the socket id) and
    [userColor] (the value [generateUserColor()] returned at connection);
    they are arguments here.  What a handler emits is the list of its
    [emit] calls in order, each with the sockets it addresses. *)

Module Server.

(** [socket.emit], [socket.to(roomId).emit] (the room's sockets except this
    one) and [io.to(roomId).emit] (all sockets of the room). *)
Inductive target := ToSocket | ToOthers | ToRoom.

(** The events emitted, by name, with their payloads.  Payloads are
    serialized when emitted: [canvasState] holds the operations as they are
    at that time. *)
Inductive event :=
| ev_init (userId userName userColor roomId : string)
    (canvasState : list DrawingOperation) (users : list Rooms.User)
| ev_userJoined (userId userName userColor : string)
| ev_drawStart (data : DrawData) (userId operationId : string)
| ev_drawMove (x y : Z) (userId operationId : string)
| ev_drawEnd (userId operationId : string)
| ev_cursorMove (x y : Z) (userId userColor : string)
| ev_undo (operationId userId : string)
| ev_redo (operationId userId : string)
| ev_clear (userId : string)
| ev_userLeft (userId : string).

Record state := {
  roomManager : gmap string (list (string * Rooms.User));
  drawingState : DrawingState
}.

Definition newServer : state :=
  {| roomManager := Rooms.newRoomManager; drawingState := newDrawingState |}.

Definition roomId : string := "default".

(** [`User ${userId.substring(0, 6)}`] *)
Definition userNameOf (userId : string) : string :=
  String.append "User " (String.substring 0 6 userId).

(** [operation.id] and [operation.userId] of the object behind a reference
    that a method of [DrawingState] returned. *)
Definition idOf (ds : DrawingState) (l : ref) : string :=
  match deref ds l with Some op => id op | None => "" end.

Definition userIdOf (ds : DrawingState) (l : ref) : string :=
  match deref ds l with Some op => userId op | None => "" end.

(** [io.on('connection', ...)], up to the registration of the handlers. *)
Definition onConnection (userId userColor : string) (sv : state)
  : list (target * event) * state :=
  let userName := userNameOf userId in
  let rooms := Rooms.joinRoom roomId userId userName userColor
                 (roomManager sv) in
  let '(canvasState, ds) := getState roomId (drawingState sv) in
  ([ (ToSocket, ev_init userId userName userColor roomId
                  (contents ds canvasState)
                  (Rooms.getRoomUsers roomId rooms));
     (ToOthers, ev_userJoined userId userName userColor) ],
   {| roomManager := rooms; drawingState := ds |}).

Definition onDrawStart (userId : string) (data : DrawData)
    (uuid : string) (now : Z) (sv : state) : list (target * event) * state :=
  let '(operation, ds) :=
    startDraw roomId userId data uuid now (drawingState sv) in
  ([ (ToSocket, ev_drawStart data userId (idOf ds operation));
     (ToOthers, ev_drawStart data userId (idOf ds operation)) ],
   {| roomManager := roomManager sv; drawingState := ds |}).

Definition onDrawMove (userId : string) (x y : Z)
    (uuid : string) (now : Z) (sv : state) : list (target * event) * state :=
  let '(operation, ds) :=
    addPoint roomId userId x y uuid now (drawingState sv) in
  ([ (ToOthers, ev_drawMove x y userId (idOf ds operation)) ],
   {| roomManager := roomManager sv; drawingState := ds |}).

Definition onDrawEnd (userId : string) (sv : state)
  : list (target * event) * state :=
  let '(operation, ds) := endDraw roomId userId (drawingState sv) in
  (match operation with
   | Some operation =>
       [ (ToSocket, ev_drawEnd userId (idOf ds operation));
         (ToOthers, ev_drawEnd userId (idOf ds operation)) ]
   | None => []
   end,
   {| roomManager := roomManager sv; drawingState := ds |}).

Definition onCursorMove (userId userColor : string) (x y : Z) (sv : state)
  : list (target * event) * state :=
  ([ (ToOthers, ev_cursorMove x y userId userColor) ], sv).

Definition onUndo (sv : state) : list (target * event) * state :=
  let '(operation, ds) := undo roomId (drawingState sv) in
  (match operation with
   | Some operation =>
       [ (ToRoom, ev_undo (idOf ds operation) (userIdOf ds operation)) ]
   | None => []
   end,
   {| roomManager := roomManager sv; drawingState := ds |}).

Definition onRedo (sv : state) : list (target * event) * state :=
  let '(operation, ds) := redo roomId (drawingState sv) in
  (match operation with
   | Some operation =>
       [ (ToRoom, ev_redo (idOf ds operation) (userIdOf ds operation)) ]
   | None => []
   end,
   {| roomManager := roomManager sv; drawingState := ds |}).

Definition onClear (userId : string) (sv : state)
  : list (target * event) * state :=
  ([ (ToRoom, ev_clear userId) ],
   {| roomManager := roomManager sv;
      drawingState := clear roomId (drawingState sv) |}).

Definition onDisconnect (userId : string) (sv : state)
  : list (target * event) * state :=
  ([ (ToOthers, ev_userLeft userId) ],
   {| roomManager := Rooms.leaveRoom roomId userId (roomManager sv);
      drawingState := drawingState sv |}).

(** What a socket can make the server do: connect, send one of the events
    the handlers are registered for, or disconnect. *)
Inductive request :=
| Connect (userId userColor : string)
| DrawStart (userId : string) (data : DrawData) (uuid : string) (now : Z)
| DrawMove (userId : string) (x y : Z) (uuid : string) (now : Z)
| DrawEnd (userId : string)
| CursorMove (userId userColor : string) (x y : Z)
| Undo
| Redo
| Clear (userId : string)
| Disconnect (userId : string).

Definition handle (q : request) (sv : state) : list (target * event) * state :=
  match q with
  | Connect u c => onConnection u c sv
  | DrawStart u d i t => onDrawStart u d i t sv
  | DrawMove u px py i t => onDrawMove u px py i t sv
  | DrawEnd u => onDrawEnd u sv
  | CursorMove u c px py => onCursorMove u c px py sv
  | Undo => onUndo sv
  | Redo => onRedo sv
  | Clear u => onClear u sv
  | Disconnect u => onDisconnect u sv
  end.

(** The server after a list of requests, served one after the other. *)
Definition serve (qs : list request) (sv : state) : state :=
  foldl (λ sv q, (handle q sv).2) sv qs.

End Server.

(** The calls on [DrawingState] and on [RoomManager] that a request makes. *)
Definition drawingCalls (q : Server.request) : list call :=
  match q with
  | Server.Connect _ _ => [GetState Server.roomId]
  | Server.DrawStart u d i t => [StartDraw Server.roomId u d i t]
  | Server.DrawMove u px py i t => [AddPoint Server.roomId u px py i t]
  | Server.DrawEnd u => [EndDraw Server.roomId u]
  | Server.Undo => [Undo Server.roomId]
  | Server.Redo => [Redo Server.roomId]
  | Server.Clear _ => [Clear Server.roomId]
  | Server.CursorMove _ _ _ _ | Server.Disconnect _ => []
  end.

Definition roomCalls (q : Server.request) : list Rooms.call :=
  match q with
  | Server.Connect u c =>
      [Rooms.JoinRoom Server.roomId u (Server.userNameOf u) c]
  | Server.Disconnect u => [Rooms.LeaveRoom Server.roomId u]
  | _ => []
  end.

(** The events emitted while a list of requests is served, in order. *)
Fixpoint emitted (qs : list Server.request) (sv : Server.state)
  : list (Server.target * Server.event) :=
  match qs with
  | [] => []
  | q :: qs' =>
      (Server.handle q sv).1 ++ emitted qs' (Server.handle q sv).2
  end.

(** The [operationId] of the events that carry one for a stroke being
    drawn. *)
Definition strokeIdOf (e : Server.event) : option string :=
  match e with
  | Server.ev_drawStart _ _ i | Server.ev_drawMove _ _ _ i
  | Server.ev_drawEnd _ i => Some i
  | _ => None
  end.

(** Requests that do not touch a stroke [user] is drawing: moves of [user],
    cursor moves, and sockets connecting and disconnecting. *)
Definition besideStroke (user : string) (q : Server.request) : bool :=
  match q with
  | Server.DrawMove u _ _ _ _ => String.eqb u user
  | Server.CursorMove _ _ _ _ | Server.Connect _ _ | Server.Disconnect _ =>
      true
  | _ => false
  end.

(** The room's current operation is a stroke of [user] with id [i]. *)
Definition drawing (user i : string) (ds : DrawingState) : Prop :=
  ∃ l op, currentOperation (room ds Server.roomId) = Some l ∧
          deref ds l = Some op ∧ id op = i ∧ userId op = user.

(** An event carries no stroke id or the id [i]. *)
Definition aboutStroke (i : string) (te : Server.target * Server.event)
  : Prop :=
  strokeIdOf te.2 = None ∨ strokeIdOf te.2 = Some i.

(** * The client's copy of the canvas

    A shallow embedding of the part of class [CanvasManager] (canvas.ts)
    that replays the server's events: the map [operations], the array
    [undoStack], and what is drawn.  Operation objects live in a store as on
    the server.  What is drawn is the list of the calls that clear the
    canvas or stroke a line, in order, each stroke with the composite
    operation, the stroke style and the line width set for it. *)

Module Canvas.

Inductive drawCmd :=
| clearRect
| strokeLine (globalCompositeOperation strokeStyle : string) (lineWidth : Z)
    (start finish : Point).

Record state := {
  operations : list (string * ref);
  undoStack : list ref;
  objs : list DrawingOperation
}.

Definition deref (cv : state) (l : ref) : option DrawingOperation :=
  objs cv !! l.

(** The operation objects of the map, in the order of [values()]. *)
Definition values (cv : state) : list DrawingOperation :=
  omap (deref cv) (operations cv).*2.

Definition drawSegment (start finish : Point) (operation : DrawingOperation)
  : list drawCmd :=
  if String.eqb (tool operation) "eraser"
  then [strokeLine "destination-out" "rgba(0,0,0,1)"
          (strokeWidth operation) start finish]
  else [strokeLine "source-over" (color operation)
          (strokeWidth operation) start finish].

Definition clearCanvas : list drawCmd := [clearRect].

Definition handleRemoteDrawStart (userId operationId : string) (x y : Z)
    (tool color : string) (strokeWidth : Z) (now : Z) (cv : state) : state :=
  let operation := length (objs cv) in
  {| operations := JsMap.map_set operationId operation (operations cv);
     undoStack := undoStack cv;
     objs := objs cv ++
       [{| id := operationId; userId := userId; tool := tool; color := color;
           strokeWidth := strokeWidth; points := [{| x := x; y := y |}];
           timestamp := now |}] |}.

(** The third component tells whether the method threw: [drawSegment] reads
    [start.x], a [TypeError] when the operation had no point; the point has
    been pushed by then.  A reference outside the store does not occur in
    a map the methods build and is treated like a missing key. *)
Definition handleRemoteDrawMove (userId operationId : string) (x y : Z)
    (cv : state) : list drawCmd * state * bool :=
  match JsMap.map_get operationId (operations cv) with
  | None => ([], cv, false)
  | Some l =>
      match deref cv l with
      | None => ([], cv, false)
      | Some operation =>
          let lastPoint := last (points operation) in
          let operation' := withPoint operation {| x := x; y := y |} in
          let cv' := {| operations := operations cv;
                        undoStack := undoStack cv;
                        objs := <[l := operation']> (objs cv) |} in
          match lastPoint with
          | Some lastPoint =>
              (drawSegment lastPoint {| x := x; y := y |} operation', cv',
               false)
          | None => ([], cv', true)
          end
      end
  end.

Definition handleRemoteDrawEnd (userId operationId : string) (cv : state)
  : state := cv.

(** The stable sort of [sortedOperations]: [Array.prototype.sort] with the
    comparator [a.timestamp - b.timestamp]. *)
Fixpoint insertByTimestamp (op : DrawingOperation)
    (sorted : list DrawingOperation) : list DrawingOperation :=
  match sorted with
  | [] => [op]
  | o :: rest =>
      if Z.leb (timestamp op) (timestamp o) then op :: o :: rest
      else o :: insertByTimestamp op rest
  end.

Definition sortByTimestamp (ops : list DrawingOperation)
  : list DrawingOperation :=
  foldr insertByTimestamp [] ops.

(** The loop [for (let i = 1; i < points.length; i++)] of [redrawAll]. *)
Fixpoint segments (operation : DrawingOperation) (pts : list Point)
  : list drawCmd :=
  match pts with
  | p :: ((q :: _) as rest) =>
      drawSegment p q operation ++ segments operation rest
  | _ => []
  end.

Definition redrawAll (cv : state) : list drawCmd :=
  clearCanvas ++
  (sortByTimestamp (values cv) ≫= λ operation,
     if Nat.ltb (length (points operation)) 2 then []
     else segments operation (points operation)).

Definition handleUndo (operationId : string) (cv : state)
  : list drawCmd * state :=
  match JsMap.map_get operationId (operations cv) with
  | Some operation =>
      let cv' := {| operations := JsMap.map_delete operationId (operations cv);
                    undoStack := undoStack cv ++ [operation];
                    objs := objs cv |} in
      (redrawAll cv', cv')
  | None => ([], cv)
  end.

(** [splice(indexOf(operation), 1)]: without the first occurrence. *)
Fixpoint spliceOut (l : ref) (a : list ref) : list ref :=
  match a with
  | [] => []
  | v :: rest => if Nat.eqb v l then rest else v :: spliceOut l rest
  end.

Definition handleRedo (operationId : string) (cv : state)
  : list drawCmd * state :=
  match List.find (λ l, match deref cv l with
                        | Some op => String.eqb (id op) operationId
                        | None => false
                        end) (undoStack cv) with
  | Some operation =>
      let cv' := {| operations :=
                      JsMap.map_set operationId operation (operations cv);
                    undoStack := spliceOut operation (undoStack cv);
                    objs := objs cv |} in
      (redrawAll cv', cv')
  | None => ([], cv)
  end.

Definition handleClear (cv : state) : list drawCmd * state :=
  (clearCanvas,
   {| operations := []; undoStack := []; objs := objs cv |}).

End Canvas.

(** ** [WebSocketManager.loadCanvasState] (websocket.ts) *)

(** [s || d] on strings and [n || d] on numbers. *)
Definition strOr (s d : string) : string :=
  if String.eqb s "" then d else s.

Definition numOr (n d : Z) : Z := if Z.eqb n 0 then d else n.

(** The loop over [op.points] from index 1; it stops when a call throws
    (the [catch] is around the whole body).  The test [typeof point.x ===
    'number'] holds of every point of an operation the server sends. *)
Fixpoint loadPoints (userId operationId : string) (pts : list Point)
    (cv : Canvas.state) : list Canvas.drawCmd * Canvas.state :=
  match pts with
  | [] => ([], cv)
  | point :: rest =>
      let '(out, cv, threw) :=
        Canvas.handleRemoteDrawMove userId operationId (x point) (y point) cv in
      if threw then (out, cv)
      else let '(out', cv) := loadPoints userId operationId rest cv in
           (out ++ out', cv)
  end.

(** The body of the [forEach] for one operation; [now] is the reading of
    [Date.now()] that [handleRemoteDrawStart] takes. *)
Definition loadOperation (op : DrawingOperation) (now : Z) (cv : Canvas.state)
  : list Canvas.drawCmd * Canvas.state :=
  match points op with
  | first :: ((_ :: _) as rest) =>
      let cv := Canvas.handleRemoteDrawStart
                  (strOr (userId op) "unknown") (strOr (id op) "")
                  (x first) (y first)
                  (strOr (tool op) "brush") (strOr (color op) "#000000")
                  (numOr (strokeWidth op) 5) now cv in
      let '(out, cv) :=
        loadPoints (strOr (userId op) "unknown") (strOr (id op) "") rest cv in
      (out,
       Canvas.handleRemoteDrawEnd
         (strOr (userId op) "unknown") (strOr (id op) "") cv)
  | _ => ([], cv)
  end.

(** [clock n] is the reading of [Date.now()] available to the [n]-th
    operation of the array. *)
Fixpoint loadCanvasState (operations : list DrawingOperation)
    (clock : nat → Z) (cv : Canvas.state)
  : list Canvas.drawCmd * Canvas.state :=
  match operations with
  | [] => ([], cv)
  | op :: rest =>
      let '(out, cv) := loadOperation op (clock 0%nat) cv in
      let '(out', cv) := loadCanvasState rest (λ n, clock (S n)) cv in
      (out ++ out', cv)
  end.

(** What [loadCanvasState] keeps of an operation. *)
Definition asLoaded (op : DrawingOperation) (now : Z) : DrawingOperation :=
  {| id := id op; userId := strOr (userId op) "unknown";
     tool := strOr (tool op) "brush"; color := strOr (color op) "#000000";
     strokeWidth := numOr (strokeWidth op) 5; points := points op;
     timestamp := now |}.


(** The order of [redrawAll]. *)
Definition byTimestamp (a b : DrawingOperation) : Prop :=
  (timestamp a ≤ timestamp b)%Z.

(** The lines [redrawAll] draws for one operation. *)
Definition linesOf (op : DrawingOperation) : list Canvas.drawCmd :=
  Canvas.segments op (points op).

(** * Basic facts *)

Section Views.
Implicit Types (ds : DrawingState) (r : string) (st : RoomState).

Lemma room_lookup ds r : room ds r = default emptyRoom (states ds !! r).
Proof. unfold room, getRoomState. by destruct (states ds !! r). Qed.

Lemma room_setRoomState r st ds r' :
  room (setRoomState r st ds) r' = if decide (r = r') then st else room ds r'.
Proof.
  rewrite !room_lookup. simpl. rewrite lookup_insert.
  by destruct (decide (r = r')).
Qed.

Lemma getRoomState_fst r ds : (getRoomState r ds).1 = room ds r.
Proof. done. Qed.

Lemma getRoomState_objs r ds : objs (getRoomState r ds).2 = objs ds.
Proof. unfold getRoomState. by destruct (states ds !! r). Qed.

Lemma getRoomState_room r ds r' : room (getRoomState r ds).2 r' = room ds r'.
Proof.
  unfold getRoomState. destruct (states ds !! r) eqn:E; [done|]. simpl.
  rewrite room_setRoomState. destruct (decide (r = r')) as [<-|]; [|done].
  by rewrite room_lookup, E.
Qed.

Lemma getRoomState_present r ds st :
  states ds !! r = Some st → getRoomState r ds = (st, ds).
Proof. intros E. unfold getRoomState. by rewrite E. Qed.

Lemma currentOf_objs st u ds ds' :
  objs ds = objs ds' → currentOf st u ds = currentOf st u ds'.
Proof. intros E. unfold currentOf, deref. by rewrite E. Qed.

Lemma currentOf_Some st u ds l :
  currentOf st u ds = Some l →
  currentOperation st = Some l ∧
  ∃ op, deref ds l = Some op ∧ userId op = u.
Proof.
  unfold currentOf. destruct (currentOperation st) as [l'|]; [|done].
  destruct (deref ds l') as [op|] eqn:E; [|done].
  destruct (String.eqb_spec (userId op) u); [|done].
  intros [= ->]. eauto.
Qed.

Lemma array_pop_snoc {A} (a : list A) v : array_pop (a ++ [v]) = (Some v, a).
Proof.
  induction a as [|w a IH]; [done|].
  change ((w :: a) ++ [v]) with (w :: (a ++ [v])).
  destruct (a ++ [v]) as [|b k] eqn:E; [by destruct a|].
  change (array_pop (w :: b :: k))
    with (let '(r, rest') := array_pop (b :: k) in (r, w :: rest')).
  by rewrite IH.
Qed.

Lemma snoc_or_nil {A} (a : list A) : a = [] ∨ ∃ a' v, a = a' ++ [v].
Proof. destruct a using rev_ind; eauto. Qed.
End Views.

(** What each method does to the store and to the rooms. *)
Section Methods.
Implicit Types (ds : DrawingState) (r u : string).

Ltac open_room r ds :=
  let st := fresh "st" in
  let ds1 := fresh "ds1" in
  let Hst := fresh "Hst" in
  let Hobjs := fresh "Hobjs" in
  let Hroom := fresh "Hroom" in
  pose proof (getRoomState_fst r ds) as Hst;
  pose proof (getRoomState_objs r ds) as Hobjs;
  pose proof (λ r', getRoomState_room r ds r') as Hroom;
  destruct (getRoomState r ds) as [st ds1]; simpl in Hst, Hobjs, Hroom;
  subst st.

Lemma startDraw_fst r u d i t ds :
  (startDraw r u d i t ds).1 = length (objs ds).
Proof. unfold startDraw. open_room r ds. simpl. by rewrite Hobjs. Qed.

Lemma startDraw_objs r u d i t ds :
  objs (startDraw r u d i t ds).2 = objs ds ++ [startOp u d i t].
Proof. unfold startDraw. open_room r ds. simpl. by rewrite Hobjs. Qed.

Lemma startDraw_room r u d i t ds r' :
  room (startDraw r u d i t ds).2 r' =
  if decide (r = r') then
    {| operations := operations (room ds r);
       undoStack := undoStack (room ds r);
       redoStack := [];
       currentOperation := Some (length (objs ds)) |}
  else room ds r'.
Proof.
  unfold startDraw. open_room r ds. simpl. rewrite room_setRoomState.
  rewrite Hobjs. destruct (decide (r = r')); [done|].
  rewrite <- Hroom. by rewrite !room_lookup.
Qed.

Lemma addPoint_owner r u px py i t ds l :
  currentOf (room ds r) u ds = Some l →
  (addPoint r u px py i t ds).1 = l ∧
  (∃ op, deref ds l = Some op ∧ userId op = u ∧
     objs (addPoint r u px py i t ds).2 =
     <[l := withPoint op {| x := px; y := py |}]> (objs ds)) ∧
  ∀ r', room (addPoint r u px py i t ds).2 r' = room ds r'.
Proof.
  intros Hc. unfold addPoint. open_room r ds.
  rewrite (currentOf_objs _ _ ds1 ds Hobjs), Hc.
  apply currentOf_Some in Hc as (_ & op & Hop & Hu).
  unfold pushPoint. unfold deref in Hop. rewrite Hobjs, Hop. simpl.
  split; [done|]. split.
  - by exists op.
  - intros r'. rewrite <- Hroom. by rewrite !room_lookup.
Qed.

Lemma addPoint_fallback r u px py i t ds :
  currentOf (room ds r) u ds = None →
  (addPoint r u px py i t ds).1 = length (objs ds) ∧
  objs (addPoint r u px py i t ds).2 =
    objs ds ++ [fallbackOp u px py i t] ∧
  ∀ r', room (addPoint r u px py i t ds).2 r' =
    if decide (r = r') then
      {| operations := operations (room ds r);
         undoStack := undoStack (room ds r);
         redoStack := redoStack (room ds r);
         currentOperation := Some (length (objs ds)) |}
    else room ds r'.
Proof.
  intros Hc. unfold addPoint. open_room r ds.
  rewrite (currentOf_objs _ _ ds1 ds Hobjs), Hc. simpl.
  rewrite Hobjs. split; [done|]. split; [done|].
  intros r'. rewrite room_setRoomState. destruct (decide (r = r')); [done|].
  rewrite <- Hroom. by rewrite !room_lookup.
Qed.

Lemma endDraw_objs r u ds : objs (endDraw r u ds).2 = objs ds.
Proof.
  unfold endDraw. open_room r ds.
  by destruct (currentOf (room ds r) u ds1).
Qed.

Lemma endDraw_owner r u ds l :
  currentOf (room ds r) u ds = Some l →
  (endDraw r u ds).1 = Some l ∧
  ∀ r', room (endDraw r u ds).2 r' =
    if decide (r = r') then
      {| operations := operations (room ds r) ++ [l];
         undoStack := undoStack (room ds r);
         redoStack := redoStack (room ds r);
         currentOperation := None |}
    else room ds r'.
Proof.
  intros Hc. unfold endDraw. open_room r ds.
  rewrite (currentOf_objs _ _ ds1 ds Hobjs), Hc. simpl.
  split; [done|]. intros r'. rewrite room_setRoomState.
  by destruct (decide (r = r')).
Qed.

Lemma endDraw_none r u ds :
  currentOf (room ds r) u ds = None →
  (endDraw r u ds).1 = None ∧
  ∀ r', room (endDraw r u ds).2 r' = room ds r'.
Proof.
  intros Hc. unfold endDraw. open_room r ds.
  by rewrite (currentOf_objs _ _ ds1 ds Hobjs), Hc.
Qed.

Lemma undo_objs r ds : objs (undo r ds).2 = objs ds.
Proof.
  unfold undo. open_room r ds.
  destruct (length (operations (room ds r)) =? 0)%nat; [done|].
  by destruct (array_pop (operations (room ds r))) as [[?|] ?].
Qed.

Lemma undo_empty r ds :
  operations (room ds r) = [] →
  (undo r ds).1 = None ∧ ∀ r', room (undo r ds).2 r' = room ds r'.
Proof. intros E. unfold undo. open_room r ds. by rewrite E. Qed.

Lemma undo_snoc r ds a l :
  operations (room ds r) = a ++ [l] →
  (undo r ds).1 = Some l ∧
  ∀ r', room (undo r ds).2 r' =
    if decide (r = r') then
      {| operations := a;
         undoStack := undoStack (room ds r) ++ [l];
         redoStack := redoStack (room ds r);
         currentOperation := currentOperation (room ds r) |}
    else room ds r'.
Proof.
  intros E. unfold undo. open_room r ds. rewrite E, array_pop_snoc.
  rewrite length_app, Nat.add_1_r. simpl. split; [done|].
  intros r'. rewrite room_setRoomState. by destruct (decide (r = r')).
Qed.

Lemma redo_objs r ds : objs (redo r ds).2 = objs ds.
Proof.
  unfold redo. open_room r ds.
  destruct (length (undoStack (room ds r)) =? 0)%nat; [done|].
  by destruct (array_pop (undoStack (room ds r))) as [[?|] ?].
Qed.

Lemma redo_empty r ds :
  undoStack (room ds r) = [] →
  (redo r ds).1 = None ∧ ∀ r', room (redo r ds).2 r' = room ds r'.
Proof. intros E. unfold redo. open_room r ds. by rewrite E. Qed.

Lemma redo_snoc r ds a l :
  undoStack (room ds r) = a ++ [l] →
  (redo r ds).1 = Some l ∧
  ∀ r', room (redo r ds).2 r' =
    if decide (r = r') then
      {| operations := operations (room ds r) ++ [l];
         undoStack := a;
         redoStack := redoStack (room ds r);
         currentOperation := currentOperation (room ds r) |}
    else room ds r'.
Proof.
  intros E. unfold redo. open_room r ds. rewrite E, array_pop_snoc.
  rewrite length_app, Nat.add_1_r. simpl. split; [done|].
  intros r'. rewrite room_setRoomState. by destruct (decide (r = r')).
Qed.

Lemma clear_objs r ds : objs (clear r ds) = objs ds.
Proof. unfold clear. by open_room r ds. Qed.

Lemma clear_room r ds r' :
  room (clear r ds) r' = if decide (r = r') then emptyRoom else room ds r'.
Proof.
  unfold clear. open_room r ds. rewrite room_setRoomState.
  by destruct (decide (r = r')).
Qed.

Lemma getState_fst r ds : (getState r ds).1 = operations (room ds r).
Proof. unfold getState. by open_room r ds. Qed.

Lemma getState_objs r ds : objs (getState r ds).2 = objs ds.
Proof. unfold getState. by open_room r ds. Qed.

Lemma getState_room r ds r' : room (getState r ds).2 r' = room ds r'.
Proof. unfold getState. by open_room r ds. Qed.
End Methods.

Lemma step_effect c ds : effect c ds (step ds c).
Proof.
  destruct c as [r u d i t|r u px py i t|r u|r|r|r|r]; simpl.
  - eapply (eff_create _ _ _ r (startOp u d i t)); try done.
    + apply startDraw_objs.
    + apply startDraw_room.
  - destruct (currentOf (room ds r) u ds) as [l|] eqn:Hc.
    + destruct (addPoint_owner r u px py i t ds l Hc)
        as (_ & (op & Hop & _ & Ho) & Hr).
      apply currentOf_Some in Hc as [Hcur _].
      by eapply eff_push.
    + destruct (addPoint_fallback r u px py i t ds Hc) as (_ & Ho & Hr).
      by eapply (eff_create _ _ _ r (fallbackOp u px py i t)).
  - destruct (currentOf (room ds r) u ds) as [l|] eqn:Hc.
    + destruct (endDraw_owner r u ds l Hc) as [_ Hr].
      apply currentOf_Some in Hc as (Hcur & op & Hop & <-).
      eapply eff_commit; eauto using endDraw_objs.
    + destruct (endDraw_none r u ds Hc) as [_ Hr].
      apply eff_skip; auto using endDraw_objs.
  - destruct (snoc_or_nil (operations (room ds r))) as [E|(a & l & E)].
    + destruct (undo_empty r ds E) as [_ Hr].
      apply eff_skip; auto using undo_objs.
    + destruct (undo_snoc r ds a l E) as [_ Hr].
      eapply eff_undo; eauto using undo_objs.
  - destruct (snoc_or_nil (undoStack (room ds r))) as [E|(a & l & E)].
    + destruct (redo_empty r ds E) as [_ Hr].
      apply eff_skip; auto using redo_objs.
    + destruct (redo_snoc r ds a l E) as [_ Hr].
      eapply eff_redo; eauto using redo_objs.
  - apply (eff_clear _ _ _ r); auto using clear_objs, clear_room.
  - apply eff_skip; auto using getState_objs, getState_room.
Qed.

Lemma room_new r : room newDrawingState r = emptyRoom.
Proof. by rewrite room_lookup. Qed.

Lemma wf_new : wf newDrawingState.
Proof.
  split; intros *; rewrite ?room_new; simpl; try done.
  all: by intros ?%elem_of_nil.
Qed.

Lemma elem_of_held st l :
  l ∈ held st ↔ l ∈ operations st ∨ l ∈ undoStack st.
Proof. apply elem_of_app. Qed.

Lemma wf_effect c ds ds' : wf ds → effect c ds ds' → wf ds'.
Proof.
  intros [Hh Hc Hn Ha Ho] E.
  setoid_rewrite elem_of_held in Hh. setoid_rewrite elem_of_held in Hn.
  setoid_rewrite elem_of_held in Ha.
  destruct E as [Eo Er|r op rs _ _ _ Eo Er|r l op p Hcur Hop Eo Er
                |r l op _ Hcur Hop Eo Er|r a l Ea Eo Er|r a l _ Ea Eo Er
                |r Eo Er].
  all: try (pose proof (Hh r) as Hhr; pose proof (Hn r) as Hnr;
            pose proof (λ r0, Ha r0 r) as Har;
            rewrite Ea in Hhr, Hnr; setoid_rewrite Ea in Har;
            setoid_rewrite elem_of_app in Hhr;
            setoid_rewrite elem_of_app in Hnr;
            setoid_rewrite elem_of_app in Har;
            setoid_rewrite list_elem_of_singleton in Hhr;
            setoid_rewrite list_elem_of_singleton in Hnr;
            setoid_rewrite list_elem_of_singleton in Har).
  all: split; intros r1; intros *; rewrite ?elem_of_held, ?Er, ?Eo;
    repeat case_decide; subst; simpl;
    rewrite ?length_app, ?length_insert, ?elem_of_app, ?elem_of_nil,
      ?list_elem_of_singleton; simpl.
  all: try done.
  all: try (by eauto).
  all: try lia.
  all: try (intros ?%Hh; lia).
  all: try (intros ?%Hc; lia).
  all: try (intros [= <-]; lia).
  all: try (intros [= <-]; intros ?%Hh; lia).
  all: try (intros [= <-]; intros ?%Hc; lia).
  all: try (intros Hx [= <-]; apply Hc in Hx; lia).
  all: try (intros; destruct_or?; subst; eauto with lia; fail).
  all: try (intros ? ?; destruct_or?; subst; eauto with lia; fail).
  all: intros Hx Hy; destruct_or?; subst;
    solve [ eapply Ha; eauto | eapply Har; eauto
          | by destruct (Ho _ _ _ Hcur Hx) ].
Qed.

(** * Runs *)

Lemma run_app cs cs' ds : run (cs ++ cs') ds = run cs' (run cs ds).
Proof. apply foldl_app. Qed.

Lemma run_cons c cs ds : run (c :: cs) ds = run cs (step ds c).
Proof. done. Qed.

Lemma wf_step c ds : wf ds → wf (step ds c).
Proof. intros H. eapply wf_effect; [done|apply step_effect]. Qed.

Lemma wf_run cs ds : wf ds → wf (run cs ds).
Proof.
  revert ds. induction cs as [|c cs IH]; intros ds H; [done|].
  rewrite run_cons. by apply IH, wf_step.
Qed.

Lemma wf_reached cs : wf (run cs newDrawingState).
Proof. apply wf_run, wf_new. Qed.

(** * Objects that are no room's current operation are frozen *)

Lemma effect_frozen c ds ds' l :
  effect c ds ds' → notCurrent ds l →
  notCurrent ds' l ∧ deref ds' l = deref ds l.
Proof.
  intros E [Hl Hn]. unfold notCurrent, deref.
  destruct E as [Eo Er|r op rs _ _ _ Eo Er|r l' op p Hcur Hop Eo Er
                |r l' op _ Hcur Hop Eo Er|r a l' Ea Eo Er|r a l' _ Ea Eo Er
                |r Eo Er]; rewrite Eo.
  all: rewrite ?length_app, ?length_insert.
  all: repeat split; try lia.
  all: try (intros r1; rewrite Er; try case_decide; simpl; try done;
            by (apply Hn || (intros [= ?]; lia))).
  - by apply lookup_app_l.
  - apply list_lookup_insert_ne. intros ->. by apply (Hn r).
Qed.

Lemma run_frozen cs ds l :
  notCurrent ds l → notCurrent (run cs ds) l ∧ deref (run cs ds) l = deref ds l.
Proof.
  revert ds. induction cs as [|c cs IH]; intros ds H; [done|].
  rewrite run_cons.
  destruct (effect_frozen c ds (step ds c) l (step_effect c ds) H) as [H1 H2].
  destruct (IH _ H1) as [H3 H4]. split; [done|]. by rewrite H4.
Qed.

Lemma held_notCurrent ds r l : wf ds → l ∈ held (room ds r) → notCurrent ds l.
Proof.
  intros W Hl. split; [by eapply wf_held|].
  intros r' Hc. by eapply wf_apart.
Qed.

(** * What a call keeps of every object *)

Lemma effect_keeps c ds ds' l op :
  effect c ds ds' → deref ds l = Some op →
  ∃ op', deref ds' l = Some op' ∧ id op' = id op ∧ userId op' = userId op ∧
         timestamp op' = timestamp op ∧ points op `prefix_of` points op'.
Proof.
  intros E Hl. unfold deref in *.
  destruct E as [Eo Er|r op1 rs _ _ _ Eo Er|r l' op1 p Hcur Hop Eo Er
                |r l' op1 _ Hcur Hop Eo Er|r a l' Ea Eo Er|r a l' _ Ea Eo Er
                |r Eo Er]; rewrite Eo.
  all: try (by exists op).
  - exists op. by rewrite lookup_app_l by by eapply lookup_lt_Some.
  - destruct (decide (l' = l)) as [->|Hne].
    + exists (withPoint op {| x := x p; y := y p |}).
      unfold deref in Hop. rewrite Hl in Hop. injection Hop as <-.
      destruct p. rewrite list_lookup_insert_eq by by eapply lookup_lt_Some.
      simpl. repeat split; try done. by apply prefix_app_r.
    + exists op. by rewrite list_lookup_insert_ne.
Qed.

Lemma run_keeps cs ds l op :
  deref ds l = Some op →
  ∃ op', deref (run cs ds) l = Some op' ∧ id op' = id op ∧
         userId op' = userId op ∧ timestamp op' = timestamp op ∧
         points op `prefix_of` points op'.
Proof.
  revert ds op. induction cs as [|c cs IH]; intros ds op H.
  { by exists op. }
  rewrite run_cons.
  destruct (effect_keeps c ds _ l op (step_effect c ds) H)
    as (op1 & H1 & Ei & Eu & Et & Ep).
  destruct (IH _ _ H1) as (op2 & H2 & Ei' & Eu' & Et' & Ep').
  exists op2. repeat split; try congruence. by etrans.
Qed.

(** * A stroke that is never ended is never committed *)

Lemma effect_pending c ds ds' r u l :
  isEndDrawOf r u c = false → effect c ds ds' →
  pending r u l ds → pending r u l ds'.
Proof.
  intros Hc E ((op & Hop & Hu) & Hh & Hcur).
  assert (Hlt : (l < length (objs ds))%nat) by by eapply lookup_lt_Some.
  split.
  { destruct (effect_keeps c ds ds' l op E Hop) as (op' & ? & _ & ? & _).
    exists op'. split; [done|congruence]. }
  setoid_rewrite elem_of_held in Hh.
  destruct E as [Eo Er|r0 op1 rs _ _ _ Eo Er|r0 l' op1 p Hcur1 Hop1 Eo Er
                |r0 l' op1 -> Hcur1 Hop1 Eo Er|r0 a l' Ea Eo Er
                |r0 a l' _ Ea Eo Er|r0 Eo Er].
  all: try (pose proof (Hh r0) as Hh0; rewrite Ea in Hh0;
            rewrite elem_of_app, list_elem_of_singleton in Hh0).
  all: split; intros r1; rewrite Er, ?elem_of_held; try case_decide; subst;
    simpl; rewrite ?elem_of_app, ?list_elem_of_singleton, ?elem_of_nil;
    eauto; try tauto.
  - intros [= ?]. lia.
  - intros [[?| ->]|?]; try (by eapply Hh; eauto).
    assert (r1 = r) as -> by eauto.
    assert (op1 = op) as -> by congruence.
    simpl in Hc. by rewrite !String.eqb_refl in Hc.
  - done.
  - done.
Qed.

Lemma run_pending cs ds r u l :
  forallb (λ c, negb (isEndDrawOf r u c)) cs = true →
  pending r u l ds → pending r u l (run cs ds).
Proof.
  revert ds. induction cs as [|c cs IH]; intros ds Hcs H; [done|].
  simpl in Hcs. apply andb_prop in Hcs as [Hc Hcs].
  rewrite run_cons. apply IH; [done|].
  eapply effect_pending; [|apply step_effect|done].
  by destruct (isEndDrawOf r u c).
Qed.

Lemma startDraw_pending r u d i t ds :
  wf ds → pending r u (startDraw r u d i t ds).1 (startDraw r u d i t ds).2.
Proof.
  intros W. rewrite startDraw_fst. split; [|split].
  - exists (startOp u d i t). unfold deref. rewrite startDraw_objs.
    by rewrite lookup_app_r, Nat.sub_diag.
  - intros r' Hin.
    assert (length (objs ds) ∈ held (room ds r')) as Hin'.
    { revert Hin. rewrite startDraw_room. by case_decide; subst. }
    apply (wf_held _ W) in Hin'. lia.
  - intros r'. rewrite startDraw_room. case_decide; [done|].
    intros Hc%(wf_current _ W). lia.
Qed.

(** * Timestamps *)

Lemma stamps_insert_withPoint (os : list DrawingOperation) l op p :
  os !! l = Some op → timestamp <$> <[l := withPoint op p]> os = timestamp <$> os.
Proof.
  intros H. rewrite list_fmap_insert. simpl. apply list_insert_id.
  by rewrite list_lookup_fmap, H.
Qed.

Lemma effect_stamps c ds ds' :
  effect c ds ds' →
  stamps ds' = stamps ds ∨
  ∃ t, clockReading c = Some t ∧ stamps ds' = stamps ds ++ [t].
Proof.
  unfold stamps.
  intros [Eo Er|r op rs Hck _ _ Eo Er|r l op p Hcur Hop Eo Er
         |r l op _ Hcur Hop Eo Er|r a l Ea Eo Er|r a l _ Ea Eo Er
         |r Eo Er]; rewrite Eo; auto.
  - right. exists (timestamp op). by rewrite fmap_app.
  - left. by apply stamps_insert_withPoint.
Qed.

Lemma step_clock lo c ds :
  clockInv lo ds →
  match clockReading c with Some t => (lo ≤ t)%Z | None => True end →
  clockInv (default lo (clockReading c)) (step ds c).
Proof.
  intros [Hs Hb] Hc. unfold clockInv.
  assert (Hb' : Forall (λ t, (t ≤ default lo (clockReading c))%Z) (stamps ds)).
  { eapply Forall_impl; [done|]. simpl. intros t Ht.
    destruct (clockReading c); simpl; lia. }
  destruct (effect_stamps c ds _ (step_effect c ds)) as [->|(t & Et & ->)];
    [done|].
  rewrite Et in *. simpl in *. split.
  - apply StronglySorted_app_2; [|done|repeat constructor].
    intros t1 t2 H1 ->%list_elem_of_singleton.
    rewrite Forall_forall in Hb. apply Hb in H1. lia.
  - apply Forall_app. split; [done|]. by repeat constructor.
Qed.

Lemma run_clock cs lo ds :
  clockInv lo ds → clockMonotone lo cs = true →
  StronglySorted Z.le (stamps (run cs ds)).
Proof.
  revert lo ds. induction cs as [|c cs IH]; intros lo ds H Hm.
  { apply H. }
  rewrite run_cons. simpl in Hm.
  pose proof (step_clock lo c ds H) as Hstep.
  destruct (clockReading c) as [t|]; simpl in Hstep.
  - apply andb_prop in Hm as [Hle Hm]. apply (IH t); [|done].
    apply Hstep. lia.
  - apply (IH lo); auto.
Qed.

Lemma clockInv_new lo : clockInv lo newDrawingState.
Proof. split; constructor. Qed.

Lemma stamps_ordered ds l1 l2 o1 o2 :
  StronglySorted Z.le (stamps ds) → (l1 ≤ l2)%nat →
  deref ds l1 = Some o1 → deref ds l2 = Some o2 →
  (timestamp o1 ≤ timestamp o2)%Z.
Proof.
  unfold stamps, deref. intros Hs Hle H1 H2.
  destruct (decide (l1 = l2)) as [->|Hne].
  { assert (o1 = o2) as -> by congruence. lia. }
  rewrite <- (take_drop l2 (objs ds)), fmap_app in Hs.
  eapply StronglySorted_app_1_elem_of; [done| |].
  - apply list_elem_of_fmap. exists o1. split; [done|].
    apply list_elem_of_lookup. exists l1. rewrite lookup_take_lt by lia. done.
  - apply list_elem_of_fmap. exists o2. split; [done|].
    apply list_elem_of_lookup. exists 0%nat. by rewrite lookup_drop, Nat.add_0_r.
Qed.

Lemma effect_ascending c ds ds' :
  wf ds → isRedo c = false → effect c ds ds' →
  opsAscending ds → opsAscending ds'.
Proof.
  intros W Hc E Ha r1.
  destruct E as [Eo Er|r op rs _ _ _ Eo Er|r l op p Hcur Hop Eo Er
                |r l op _ Hcur Hop Eo Er|r a l Ea Eo Er|r a l -> Ea Eo Er
                |r Eo Er]; rewrite ?Er; try done.
  all: case_decide; subst; simpl; try done.
  - apply StronglySorted_app_2; [|done|repeat constructor].
    intros l1 l2 H1 ->%list_elem_of_singleton.
    eapply (wf_newest _ W); [done|]. apply elem_of_held. by left.
  - specialize (Ha r1). rewrite Ea in Ha.
    by eapply StronglySorted_app_1_l.
  - constructor.
Qed.

Lemma run_ascending cs ds :
  wf ds → forallb (λ c, negb (isRedo c)) cs = true →
  opsAscending ds → opsAscending (run cs ds).
Proof.
  revert ds. induction cs as [|c cs IH]; intros ds W Hcs H; [done|].
  simpl in Hcs. apply andb_prop in Hcs as [Hc Hcs].
  rewrite run_cons. apply IH; [by apply wf_step|done|].
  eapply effect_ascending; [done| |apply step_effect|done].
  by destruct (isRedo c).
Qed.

Lemma contents_sorted ds (a : list ref) :
  StronglySorted Z.le (stamps ds) → StronglySorted lt a →
  StronglySorted Z.le (timestamp <$> contents ds a).
Proof.
  intros Hs. unfold contents. induction 1 as [|l a Ha IH Hl]; [constructor|].
  simpl. destruct (deref ds l) as [op|] eqn:Hop; [|done]. simpl.
  constructor; [done|]. apply Forall_fmap, Forall_forall.
  intros op' (l' & Hl' & Hop')%list_elem_of_omap. simpl.
  rewrite Forall_forall in Hl. apply Hl in Hl'.
  eapply stamps_ordered; [done| |done..]. lia.
Qed.

(** * Identifiers *)

Lemma effect_ids c ds ds' :
  effect c ds ds' →
  (id <$> objs ds') = (id <$> objs ds) ∨
  ∃ i, uuidReading c = Some i ∧ (id <$> objs ds') = (id <$> objs ds) ++ [i].
Proof.
  intros [Eo Er|r op rs _ Hid _ Eo Er|r l op p Hcur Hop Eo Er
         |r l op _ Hcur Hop Eo Er|r a l Ea Eo Er|r a l _ Ea Eo Er
         |r Eo Er]; rewrite Eo; auto.
  - right. exists (id op). by rewrite fmap_app.
  - left. rewrite list_fmap_insert. simpl. apply list_insert_id.
    rewrite list_lookup_fmap. unfold deref, ref in Hop. by rewrite Hop.
Qed.

Lemma run_ids cs ds :
  ∃ k, (id <$> objs (run cs ds)) = (id <$> objs ds) ++ k ∧
       k `sublist_of` omap uuidReading cs.
Proof.
  revert ds. induction cs as [|c cs IH]; intros ds.
  { exists []. by rewrite app_nil_r. }
  rewrite run_cons. destruct (IH (step ds c)) as (k & Ek & Hk).
  destruct (effect_ids c ds _ (step_effect c ds)) as [E|(i & Ei & E)].
  - exists k. rewrite Ek, E. split; [done|]. simpl.
    destruct (uuidReading c); [by apply sublist_cons|done].
  - exists (i :: k). rewrite Ek, E, <- app_assoc. split; [done|]. simpl.
    rewrite Ei. by apply sublist_skip.
Qed.

(** * Rooms other than the one a call names *)

Lemma getRoomState_states_ne r ds r' :
  r' ≠ r → states (getRoomState r ds).2 !! r' = states ds !! r'.
Proof.
  intros Hne. unfold getRoomState. destruct (states ds !! r); [done|].
  simpl. by rewrite lookup_insert_ne.
Qed.

Lemma undo_states_ne r ds r' :
  r' ≠ r → states (undo r ds).2 !! r' = states ds !! r'.
Proof.
  intros Hne. unfold undo.
  pose proof (getRoomState_states_ne r ds r' Hne) as H.
  destruct (getRoomState r ds) as [st ds1]. simpl in H.
  destruct (length (operations st) =? 0)%nat; [done|].
  destruct (array_pop (operations st)) as [[?|] ?]; [|done].
  simpl. by rewrite lookup_insert_ne.
Qed.

Lemma redo_states_ne r ds r' :
  r' ≠ r → states (redo r ds).2 !! r' = states ds !! r'.
Proof.
  intros Hne. unfold redo.
  pose proof (getRoomState_states_ne r ds r' Hne) as H.
  destruct (getRoomState r ds) as [st ds1]. simpl in H.
  destruct (length (undoStack st) =? 0)%nat; [done|].
  destruct (array_pop (undoStack st)) as [[?|] ?]; [|done].
  simpl. by rewrite lookup_insert_ne.
Qed.

Lemma undo_room_kept r ds :
  currentOperation (room (undo r ds).2 r) = currentOperation (room ds r) ∧
  redoStack (room (undo r ds).2 r) = redoStack (room ds r).
Proof.
  destruct (snoc_or_nil (operations (room ds r))) as [E|(a & l & E)].
  - destruct (undo_empty r ds E) as [_ ->]. done.
  - destruct (undo_snoc r ds a l E) as [_ ->]. by case_decide.
Qed.

Lemma redo_room_kept r ds :
  currentOperation (room (redo r ds).2 r) = currentOperation (room ds r) ∧
  redoStack (room (redo r ds).2 r) = redoStack (room ds r).
Proof.
  destruct (snoc_or_nil (undoStack (room ds r))) as [E|(a & l & E)].
  - destruct (redo_empty r ds E) as [_ ->]. done.
  - destruct (redo_snoc r ds a l E) as [_ ->]. by case_decide.
Qed.

(** * The class on two small runs *)

(** One user drawing alone: the committed stroke holds the points sent. *)
Example oneStroke_committed :
  committed (run oneStroke newDrawingState) "room" =
    [withPoint (startOp "A" (brushAt 0 0) "id-1" 1) {| x := 10; y := 10 |}] ∧
  (points <$> committed (run oneStroke newDrawingState) "room") =
    [submitted "room" "A" oneStroke].
Proof. vm_compute. by split. Qed.

(** A draws a stroke and B draws one after; [undo] returns B's and [redo]
    puts it back. *)
Example two_strokes_undo_redo :
  let ds := run (oneStroke ++ [StartDraw "room" "B" (brushAt 5 5) "id-3" 3;
                               EndDraw "room" "B"]) newDrawingState in
  operations (room ds "room") = [0%nat; 1%nat] ∧
  (undo "room" ds).1 = Some 1%nat ∧
  operations (room (undo "room" ds).2 "room") = [0%nat] ∧
  undoStack (room (undo "room" ds).2 "room") = [1%nat] ∧
  (redo "room" (undo "room" ds).2).1 = Some 1%nat ∧
  operations (room (redo "room" (undo "room" ds).2).2 "room") = [0%nat; 1%nat].
Proof. vm_compute. by repeat split. Qed.

(** * The claims *)

(** C1 (the code departs from it).  Each user's committed stroke should hold
    exactly the points that user sent, whatever other users do in between.
    On the run [twoUsers] the room's single [currentOperation] slot is taken
    over by B's [startDraw]: A sent (0,0) and (10,10), but the only stroke of A
    in the log is the default stroke that [addPoint] made up, holding (10,10)
    alone; B sent (5,5), [endDraw] for B returns [null] and B has no stroke in
    the log. *)
Theorem twoUsers_strokes_lost :
  let ds := run twoUsers newDrawingState in
  submitted "room" "A" twoUsers = [{| x := 0; y := 0 |}; {| x := 10; y := 10 |}] ∧
  strokesOf ds "room" "A" = [fallbackOp "A" 10 10 "id-3" 3] ∧
  (points <$> strokesOf ds "room" "A") = [[{| x := 10; y := 10 |}]] ∧
  submitted "room" "B" twoUsers = [{| x := 5; y := 5 |}] ∧
  (endDraw "room" "B" (run (take 4 twoUsers) newDrawingState)).1 = None ∧
  strokesOf ds "room" "B" = [].
Proof. vm_compute. by repeat split. Qed.

(** C3 (the code departs from it).  After a successful [endDraw] the stack
    that [redo] pops should be empty.  [startDraw] empties [redoStack], which
    no method reads; [redo] pops [undoStack], which neither [startDraw] nor
    [endDraw] empties.  After [strokeAfterUndo], the [endDraw] that commits the
    second stroke leaves the undone first stroke on [undoStack], and a [redo]
    brings it back behind the second. *)
Theorem endDraw_keeps_undoStack :
  let ds := run strokeAfterUndo newDrawingState in
  let ds' := (endDraw "room" "A" ds).2 in
  (endDraw "room" "A" ds).1 = Some 1%nat ∧
  undoStack (room ds' "room") = [0%nat] ∧
  redoStack (room ds' "room") = [] ∧
  (redo "room" ds').1 = Some 0%nat ∧
  operations (room (redo "room" ds').2 "room") = [1%nat; 0%nat].
Proof. vm_compute. by repeat split. Qed.

(** C2, as stated, fails: [startDraw] has no failure result.  A has a stroke
    in progress (object 0); a second [startDraw] for A returns a new operation
    (object 1) and puts it in the room's slot in place of the first. *)
Lemma startDraw_twice_replaces :
  let ds := run begun newDrawingState in
  let res := startDraw "room" "A" (brushAt 1 1) "id-2" 2 ds in
  currentOf (room ds "room") "A" ds = Some 0%nat ∧
  res.1 = 1%nat ∧
  deref res.2 res.1 = Some (startOp "A" (brushAt 1 1) "id-2" 2) ∧
  currentOperation (room res.2 "room") = Some 1%nat ∧
  currentOperation (room res.2 "room") ≠ currentOperation (room ds "room").
Proof. vm_compute. by repeat split. Qed.

(** C2, amended.  In a state where [user] has a stroke [l0] in progress,
    [startDraw] for [user] returns a new object holding the one point given
    and makes it the room's current operation in place of [l0]; the object
    [l0] itself is not altered, and the committed log and the undo stack of
    the room are as before. *)
Theorem startDraw_replaces_current ds r u d i t l0 :
  currentOf (room ds r) u ds = Some l0 →
  let res := startDraw r u d i t ds in
  res.1 = length (objs ds) ∧
  deref res.2 res.1 = Some (startOp u d i t) ∧
  currentOperation (room res.2 r) = Some res.1 ∧
  res.1 ≠ l0 ∧
  deref res.2 l0 = deref ds l0 ∧
  operations (room res.2 r) = operations (room ds r) ∧
  undoStack (room res.2 r) = undoStack (room ds r) ∧
  redoStack (room res.2 r) = [].
Proof.
  intros (_ & op & Hop & _)%currentOf_Some. simpl.
  assert (Hlt : (l0 < length (objs ds))%nat) by by eapply lookup_lt_Some.
  rewrite startDraw_fst, startDraw_room. unfold deref.
  rewrite startDraw_objs. case_decide; [simpl|done].
  rewrite lookup_app_r, Nat.sub_diag by done.
  rewrite lookup_app_l by done. repeat split; try done. lia.
Qed.

Lemma startDraw_replaces_current_witness :
  let ds := run begun newDrawingState in
  let res := startDraw "room" "A" (brushAt 1 1) "id-2" 2 ds in
  res.1 = length (objs ds) ∧
  deref res.2 res.1 = Some (startOp "A" (brushAt 1 1) "id-2" 2) ∧
  currentOperation (room res.2 "room") = Some res.1 ∧
  res.1 ≠ 0%nat ∧
  deref res.2 0%nat = deref ds 0%nat ∧
  operations (room res.2 "room") = operations (room ds "room") ∧
  undoStack (room res.2 "room") = undoStack (room ds "room") ∧
  redoStack (room res.2 "room") = [].
Proof.
  apply (startDraw_replaces_current (run begun newDrawingState)
           "room" "A" (brushAt 1 1) "id-2" 2 0%nat).
  vm_compute. reflexivity.
Defined.

(** C4, as stated, fails: [addPoint] has no failure result and is no no-op.
    After A's stroke has ended, a stray [addPoint] for A creates a default
    stroke in the room's slot, and the next [endDraw] for A commits it. *)
Lemma addPoint_after_end_creates :
  let ds := run oneStroke newDrawingState in
  let res := addPoint "room" "A" 3 4 "id-9" 9 ds in
  currentOf (room ds "room") "A" ds = None ∧
  currentOperation (room ds "room") = None ∧
  deref res.2 res.1 = Some (fallbackOp "A" 3 4 "id-9" 9) ∧
  currentOperation (room res.2 "room") = Some res.1 ∧
  room res.2 "room" ≠ room ds "room" ∧
  length (committed ds "room") = 1%nat ∧
  committed (endDraw "room" "A" res.2).2 "room" =
    committed ds "room" ++ [fallbackOp "A" 3 4 "id-9" 9].
Proof. vm_compute. by repeat split. Qed.

(** C4, amended.  When the calling user owns no current operation, [addPoint]
    returns an operation and leaves the committed log and the undo stack of
    the room as they were.  It is not without effect: when the room has no
    current operation, it creates the default stroke (brush, #000000, width 5)
    holding the one point, makes it the room's current operation, and an
    [endDraw] by the same user next commits it. *)
Theorem addPoint_without_stroke ds r u px py i t :
  currentOf (room ds r) u ds = None →
  let res := addPoint r u px py i t ds in
  operations (room res.2 r) = operations (room ds r) ∧
  undoStack (room res.2 r) = undoStack (room ds r) ∧
  (currentOperation (room ds r) = None →
     res.1 = length (objs ds) ∧
     deref res.2 res.1 = Some (fallbackOp u px py i t) ∧
     currentOperation (room res.2 r) = Some res.1 ∧
     (endDraw r u res.2).1 = Some res.1 ∧
     operations (room (endDraw r u res.2).2 r) =
       operations (room ds r) ++ [res.1]).
Proof.
  intros Hc. simpl.
  destruct (addPoint_fallback r u px py i t ds Hc) as (E1 & Eo & Er).
  rewrite E1. rewrite !Er. case_decide; [simpl|done].
  repeat split; try done.
  - unfold deref. by rewrite Eo, lookup_app_r, Nat.sub_diag.
  - assert (Hc' : currentOf (room (addPoint r u px py i t ds).2 r) u
                    (addPoint r u px py i t ds).2 = Some (length (objs ds))).
    { unfold currentOf, deref. rewrite Er, Eo. case_decide; [simpl|done].
      rewrite lookup_app_r, Nat.sub_diag by done. simpl.
      by rewrite String.eqb_refl. }
    by destruct (endDraw_owner _ _ _ _ Hc') as [-> _].
  - assert (Hc' : currentOf (room (addPoint r u px py i t ds).2 r) u
                    (addPoint r u px py i t ds).2 = Some (length (objs ds))).
    { unfold currentOf, deref. rewrite Er, Eo. case_decide; [simpl|done].
      rewrite lookup_app_r, Nat.sub_diag by done. simpl.
      by rewrite String.eqb_refl. }
    destruct (endDraw_owner _ _ _ _ Hc') as [_ ->].
    case_decide; [simpl|done]. rewrite Er. by case_decide.
Qed.

Lemma addPoint_without_stroke_witness :
  let ds := run oneStroke newDrawingState in
  let res := addPoint "room" "A" 3 4 "id-9" 9 ds in
  operations (room res.2 "room") = operations (room ds "room") ∧
  undoStack (room res.2 "room") = undoStack (room ds "room") ∧
  res.1 = length (objs ds) ∧
  deref res.2 res.1 = Some (fallbackOp "A" 3 4 "id-9" 9) ∧
  currentOperation (room res.2 "room") = Some res.1 ∧
  (endDraw "room" "A" res.2).1 = Some res.1 ∧
  operations (room (endDraw "room" "A" res.2).2 "room") =
    operations (room ds "room") ++ [res.1].
Proof.
  destruct (addPoint_without_stroke (run oneStroke newDrawingState)
              "room" "A" 3 4 "id-9" 9) as (H1 & H2 & H3).
  { vm_compute. reflexivity. }
  split; [exact H1|]. split; [exact H2|]. apply H3.
  vm_compute. reflexivity.
Defined.

(** C5, as stated, fails.  [endDraw] assigns no timestamp; an operation keeps
    the clock reading of its creation.  When the clock is set back between two
    strokes ([clockSetBack]) the second is committed with timestamp 5 behind
    one of timestamp 10.  Under a clock that only advances, a [redo] puts an
    older stroke behind a newer one ([redoneLate]). *)
Lemma committed_timestamps_decrease :
  let ds := run clockSetBack newDrawingState in
  let res := endDraw "room" "A" ds in
  (timestamp <$> committed ds "room") = [10] ∧
  (timestamp <$> (res.1 ≫= deref res.2)) = Some 5 ∧
  (timestamp <$> committed res.2 "room") = [10; 5] ∧
  ¬ StronglySorted Z.le (timestamp <$> committed res.2 "room") ∧
  clockMonotone 0 redoneLate = true ∧
  (timestamp <$> committed (run redoneLate newDrawingState) "room") = [1; 3; 2].
Proof.
  vm_compute. repeat split; try done.
  intros H. apply StronglySorted_cons in H as [H _].
  apply Forall_cons in H as [H _]. by apply H.
Qed.

(** C5, amended.  [endDraw] alters no object: the operation it commits keeps
    the timestamp it was given at its creation, the reading of the clock
    taken by [startDraw] (or by [addPoint] when it creates the stroke).  In a
    run whose clock readings never decrease, the operation that [endDraw]
    commits has a timestamp at least that of every operation of the room's
    committed log; if moreover the run has no [redo], the timestamps of the
    committed log never decrease. *)
Theorem endDraw_timestamp_order lo cs r u :
  clockMonotone lo cs = true →
  let ds := run cs newDrawingState in
  objs (endDraw r u ds).2 = objs ds ∧
  (∀ d i t post,
     timestamp <$> deref (run post (startDraw r u d i t ds).2)
                     (startDraw r u d i t ds).1 = Some t) ∧
  (∀ l op, (endDraw r u ds).1 = Some l → deref ds l = Some op →
     Forall (λ o, (timestamp o ≤ timestamp op)%Z) (committed ds r)) ∧
  (forallb (λ c, negb (isRedo c)) cs = true →
     StronglySorted Z.le (timestamp <$> committed ds r)).
Proof.
  intros Hm ds.
  assert (W : wf ds) by apply wf_reached.
  assert (Hs : StronglySorted Z.le (stamps ds)).
  { eapply run_clock; [apply clockInv_new|done]. }
  split; [apply endDraw_objs|]. split; [|split].
  - intros d i t post.
    assert (H0 : deref (startDraw r u d i t ds).2 (startDraw r u d i t ds).1
                 = Some (startOp u d i t)).
    { unfold deref. rewrite startDraw_fst, startDraw_objs.
      by rewrite lookup_app_r, Nat.sub_diag. }
    destruct (run_keeps post _ _ _ H0) as (op' & -> & _ & _ & Et & _).
    simpl. by rewrite Et.
  - intros l op Hl Hop. apply Forall_forall.
    intros o (l' & Hl' & Ho)%list_elem_of_omap.
    destruct (currentOf (room ds r) u ds) as [l1|] eqn:Hc.
    + destruct (endDraw_owner r u ds l1 Hc) as [E _].
      rewrite E in Hl. injection Hl as ->.
      apply currentOf_Some in Hc as [Hc _].
      eapply stamps_ordered; [done| |done..].
      apply Nat.lt_le_incl. eapply (wf_newest _ W); [done|].
      apply elem_of_held. by left.
    + destruct (endDraw_none r u ds Hc) as [E _]. by rewrite E in Hl.
  - intros Hr. apply contents_sorted; [done|].
    apply (run_ascending cs newDrawingState wf_new Hr).
    intros r'. rewrite room_new. constructor.
Qed.

Lemma endDraw_timestamp_order_witness :
  let cs := [ StartDraw "room" "A" (brushAt 0 0) "id-1" 1; EndDraw "room" "A";
              StartDraw "room" "B" (brushAt 5 5) "id-2" 2 ] in
  let ds := run cs newDrawingState in
  objs (endDraw "room" "B" ds).2 = objs ds ∧
  Forall (λ o, (timestamp o ≤ timestamp (startOp "B" (brushAt 5 5) "id-2" 2))%Z)
    (committed ds "room") ∧
  StronglySorted Z.le (timestamp <$> committed ds "room").
Proof.
  destruct (endDraw_timestamp_order 0
              [ StartDraw "room" "A" (brushAt 0 0) "id-1" 1;
                EndDraw "room" "A";
                StartDraw "room" "B" (brushAt 5 5) "id-2" 2 ] "room" "B")
    as (H1 & _ & H3 & H4).
  { vm_compute. reflexivity. }
  split; [exact H1|]. split.
  - apply (H3 1%nat); vm_compute; reflexivity.
  - apply H4. vm_compute. reflexivity.
Defined.

(** C6.  In a room whose committed log is not empty, [undo] takes the last
    entry off the log and pushes it on [undoStack]; a [redo] right after pops
    that entry and appends it at the end of the log.  The log is then the
    list it was, so the ids it holds are the same multiset as before. *)
Theorem undo_redo_restores ds r :
  operations (room ds r) ≠ [] →
  let un := undo r ds in
  let re := redo r un.2 in
  ∃ a l,
    operations (room ds r) = a ++ [l] ∧
    un.1 = Some l ∧
    operations (room un.2 r) = a ∧
    undoStack (room un.2 r) = undoStack (room ds r) ++ [l] ∧
    re.1 = Some l ∧
    operations (room re.2 r) = a ++ [l] ∧
    undoStack (room re.2 r) = undoStack (room ds r) ∧
    committed re.2 r = committed ds r ∧
    (id <$> committed re.2 r) ≡ₚ (id <$> committed ds r).
Proof.
  intros Hne. simpl.
  destruct (snoc_or_nil (operations (room ds r))) as [E|(a & l & E)]; [done|].
  destruct (undo_snoc r ds a l E) as [Eu Hu].
  assert (Es : undoStack (room (undo r ds).2 r) = undoStack (room ds r) ++ [l]).
  { rewrite Hu. by case_decide. }
  destruct (redo_snoc r _ _ l Es) as [Er Hr].
  assert (Eops : operations (room (redo r (undo r ds).2).2 r) = a ++ [l]).
  { rewrite Hr. case_decide; [simpl|done]. rewrite Hu. by case_decide. }
  assert (Ec : committed (redo r (undo r ds).2).2 r = committed ds r).
  { unfold committed, contents, deref.
    rewrite Eops, E, redo_objs, undo_objs. done. }
  exists a, l. repeat split; try done.
  - rewrite Hu. by case_decide.
  - rewrite Hr. by case_decide.
  - by rewrite Ec.
Qed.

Lemma undo_redo_restores_witness :
  let ds := run oneStroke newDrawingState in
  ∃ a l,
    operations (room ds "room") = a ++ [l] ∧
    (undo "room" ds).1 = Some l ∧
    operations (room (undo "room" ds).2 "room") = a ∧
    undoStack (room (undo "room" ds).2 "room") =
      undoStack (room ds "room") ++ [l] ∧
    (redo "room" (undo "room" ds).2).1 = Some l ∧
    operations (room (redo "room" (undo "room" ds).2).2 "room") = a ++ [l] ∧
    undoStack (room (redo "room" (undo "room" ds).2).2 "room") =
      undoStack (room ds "room") ∧
    committed (redo "room" (undo "room" ds).2).2 "room" =
      committed ds "room" ∧
    (id <$> committed (redo "room" (undo "room" ds).2).2 "room")
      ≡ₚ (id <$> committed ds "room").
Proof.
  apply (undo_redo_restores (run oneStroke newDrawingState) "room").
  vm_compute. discriminate.
Defined.

(** C7.  In every state the class builds, [getState] returns the references
    of the room's committed log and nothing else: no room's current operation
    is among them; the objects behind them are never altered by later calls,
    so what was read stays what it was; and a stroke that a user began and
    never ends (no [endDraw] for that user in that room follows) is in no
    room's committed log at any later time. *)
Theorem getState_excludes_in_progress pre r :
  let ds := run pre newDrawingState in
  (getState r ds).1 = operations (room ds r) ∧
  contents (getState r ds).2 (getState r ds).1 = committed ds r ∧
  (∀ r' l, currentOperation (room ds r') = Some l → l ∉ (getState r ds).1) ∧
  (∀ post l, l ∈ (getState r ds).1 →
     deref (run post (getState r ds).2) l = deref ds l) ∧
  (∀ u d i t post r',
     forallb (λ c, negb (isEndDrawOf r u c)) post = true →
     let began := startDraw r u d i t ds in
     (began.1 ∉ (getState r' (run post began.2)).1) ∧
     (began.1 ∉ undoStack (room (run post began.2) r'))).
Proof.
  intros ds. assert (W : wf ds) by apply wf_reached.
  rewrite getState_fst. split; [done|]. split; [|split; [|split]].
  - unfold committed, contents, deref. by rewrite getState_objs.
  - intros r' l Hc Hin. eapply (wf_apart _ W); [done|].
    apply elem_of_held. by left.
  - intros post l Hin.
    assert (Hn : notCurrent (getState r ds).2 l).
    { assert (notCurrent ds l) as [H1 H2].
      { eapply held_notCurrent; [done|]. apply elem_of_held. by left. }
      split; [by rewrite getState_objs|].
      intros r'. rewrite getState_room. apply H2. }
    destruct (run_frozen post _ l Hn) as [_ ->].
    unfold deref. by rewrite getState_objs.
  - intros u d i t post r' Hpost. simpl. rewrite getState_fst.
    pose proof (run_pending post _ r u _ Hpost (startDraw_pending r u d i t ds W))
      as (_ & Hh & _).
    specialize (Hh r'). rewrite elem_of_held in Hh. tauto.
Qed.

Lemma getState_excludes_in_progress_witness :
  let pre := oneStroke ++ [StartDraw "room" "B" (brushAt 5 5) "id-7" 7] in
  let ds := run pre newDrawingState in
  let post := [ AddPoint "room" "B" 6 6 "id-8" 8;
                StartDraw "room" "A" (brushAt 1 1) "id-9" 9;
                EndDraw "room" "A"; Undo "room"; Redo "room" ] in
  let began := startDraw "room" "C" (brushAt 7 7) "id-6" 8 ds in
  (1%nat ∉ (getState "room" ds).1) ∧
  deref (run post (getState "room" ds).2) 0%nat = deref ds 0%nat ∧
  (began.1 ∉ (getState "room" (run post began.2)).1) ∧
  (began.1 ∉ undoStack (room (run post began.2) "room")).
Proof.
  destruct (getState_excludes_in_progress
              (oneStroke ++ [StartDraw "room" "B" (brushAt 5 5) "id-7" 7])
              "room") as (_ & _ & H3 & H4 & H5).
  split; [|split].
  - apply (H3 "room" 1%nat). vm_compute. reflexivity.
  - apply (H4 [ AddPoint "room" "B" 6 6 "id-8" 8;
                StartDraw "room" "A" (brushAt 1 1) "id-9" 9;
                EndDraw "room" "A"; Undo "room"; Redo "room" ] 0%nat).
    vm_compute. apply list_elem_of_here.
  - apply (H5 "C" (brushAt 7 7) "id-6" 8
             [ AddPoint "room" "B" 6 6 "id-8" 8;
               StartDraw "room" "A" (brushAt 1 1) "id-9" 9;
               EndDraw "room" "A"; Undo "room"; Redo "room" ] "room").
    vm_compute. reflexivity.
Defined.

(** C8, as stated, fails: the id is given by [startDraw], from the
    [uuidv4()] it reads, before any commit; [endDraw] reads no id and
    commits the operation with the id it has. *)
Lemma id_present_before_commit :
  let res := startDraw "room" "A" (brushAt 0 0) "id-1" 1 newDrawingState in
  let fin := endDraw "room" "A" res.2 in
  (id <$> deref res.2 res.1) = Some "id-1" ∧
  operations (room res.2 "room") = [] ∧
  fin.1 = Some res.1 ∧
  operations (room fin.2 "room") = [res.1] ∧
  (id <$> deref fin.2 res.1) = Some "id-1".
Proof. vm_compute. by repeat split. Qed.

(** C8, amended.  The id of an operation is the [uuidv4()] value read when
    its object is created, by [startDraw] or by [addPoint] when it creates
    the stroke; [endDraw] alters no object, and the id of an object is the
    same in every later state.  The ids of the store are pairwise distinct
    whenever the values read from [uuidv4()] are. *)
Theorem id_given_at_creation :
  (∀ ds r u d i t post,
     id <$> deref (run post (startDraw r u d i t ds).2)
              (startDraw r u d i t ds).1 = Some i) ∧
  (∀ ds r u px py i t post,
     currentOf (room ds r) u ds = None →
     id <$> deref (run post (addPoint r u px py i t ds).2)
              (addPoint r u px py i t ds).1 = Some i) ∧
  (∀ ds r u, objs (endDraw r u ds).2 = objs ds) ∧
  (∀ ds l op post,
     deref ds l = Some op → id <$> deref (run post ds) l = Some (id op)) ∧
  (∀ cs, NoDup (omap uuidReading cs) →
     NoDup (id <$> objs (run cs newDrawingState))).
Proof.
  assert (Hkeep : ∀ ds l op post,
     deref ds l = Some op → id <$> deref (run post ds) l = Some (id op)).
  { intros ds l op post H.
    destruct (run_keeps post _ _ _ H) as (op' & -> & Ei & _). simpl.
    by rewrite Ei. }
  split; [|split; [|split; [|split]]].
  - intros ds r u d i t post.
    apply (Hkeep _ _ (startOp u d i t)). unfold deref.
    rewrite startDraw_fst, startDraw_objs.
    by rewrite lookup_app_r, Nat.sub_diag.
  - intros ds r u px py i t post Hc.
    destruct (addPoint_fallback r u px py i t ds Hc) as (E1 & Eo & _).
    apply (Hkeep _ _ (fallbackOp u px py i t)). unfold deref.
    rewrite E1, Eo. by rewrite lookup_app_r, Nat.sub_diag.
  - intros. apply endDraw_objs.
  - done.
  - intros cs Hnd. destruct (run_ids cs newDrawingState) as (k & -> & Hk).
    simpl. by eapply sublist_NoDup.
Qed.

Lemma id_given_at_creation_witness :
  (id <$> deref (run [EndDraw "room" "A"; Undo "room"]
                   (addPoint "room" "A" 3 4 "id-1" 1 newDrawingState).2)
            (addPoint "room" "A" 3 4 "id-1" 1 newDrawingState).1)
    = Some "id-1" ∧
  (id <$> deref (run [AddPoint "room" "A" 3 4 "id-2" 2; EndDraw "room" "A"]
                   (run begun newDrawingState)) 0%nat) = Some "id-1" ∧
  NoDup (id <$> objs (run twoUsers newDrawingState)).
Proof.
  destruct id_given_at_creation as (_ & H2 & _ & H4 & H5).
  split; [|split].
  - apply H2. vm_compute. reflexivity.
  - apply (H4 (run begun newDrawingState) 0%nat
              (startOp "A" (brushAt 0 0) "id-1" 1)).
    vm_compute. reflexivity.
  - apply H5. apply (bool_decide_unpack _). vm_compute. exact I.
Defined.

(** C9.  [clear] leaves the room with an empty committed log, an empty
    [undoStack] (and [redoStack]) and no current operation, whatever the room
    held.  An [undo] on a cleared room returns [null] and changes nothing, and
    so does an [undo] on any room whose committed log is empty. *)
Theorem clear_empties_then_undo_null ds r :
  room (clear r ds) r = emptyRoom ∧
  undo r (clear r ds) = (None, clear r ds) ∧
  (∀ ds0 st, states ds0 !! r = Some st → operations st = [] →
     undo r ds0 = (None, ds0)) ∧
  (∀ ds0, operations (room ds0 r) = [] →
     (undo r ds0).1 = None ∧ objs (undo r ds0).2 = objs ds0 ∧
     ∀ r', room (undo r ds0).2 r' = room ds0 r').
Proof.
  assert (Hpresent : ∀ ds0 st, states ds0 !! r = Some st →
            operations st = [] → undo r ds0 = (None, ds0)).
  { intros ds0 st Hst Hops. unfold undo.
    rewrite (getRoomState_present r ds0 st Hst). by rewrite Hops. }
  split; [|split; [|split]].
  - rewrite clear_room. by case_decide.
  - apply (Hpresent _ emptyRoom); [|done].
    unfold clear. destruct (getRoomState r ds) as [st ds1]. simpl.
    apply lookup_insert_eq.
  - done.
  - intros ds0 E. destruct (undo_empty r ds0 E) as [-> Hr].
    by rewrite undo_objs.
Qed.

Lemma clear_empties_then_undo_null_witness :
  let ds := run redoneLate newDrawingState in
  room (clear "room" ds) "room" = emptyRoom ∧
  undo "room" (clear "room" ds) = (None, clear "room" ds) ∧
  undo "room" (run [Undo "room"; GetState "room"] (run oneStroke newDrawingState))
    = (None, run [Undo "room"; GetState "room"] (run oneStroke newDrawingState)) ∧
  (undo "other" ds).1 = None.
Proof.
  destruct (clear_empties_then_undo_null (run redoneLate newDrawingState) "room")
    as (H1 & H2 & H3 & _).
  destruct (clear_empties_then_undo_null (run redoneLate newDrawingState) "other")
    as (_ & _ & _ & H4).
  split; [exact H1|]. split; [exact H2|]. split.
  - apply (H3 _ {| operations := []; undoStack := [0%nat]; redoStack := [];
                   currentOperation := None |}).
    + vm_compute. reflexivity.
    + reflexivity.
  - apply H4. vm_compute. reflexivity.
Defined.

(** C10.  [undo] and [redo] on a room leave its current operation (and its
    [redoStack]) as it was, alter no operation object, and leave every other
    room of the map as it was. *)
Theorem undo_redo_touch_only_arrays ds r :
  currentOperation (room (undo r ds).2 r) = currentOperation (room ds r) ∧
  currentOperation (room (redo r ds).2 r) = currentOperation (room ds r) ∧
  redoStack (room (undo r ds).2 r) = redoStack (room ds r) ∧
  redoStack (room (redo r ds).2 r) = redoStack (room ds r) ∧
  objs (undo r ds).2 = objs ds ∧
  objs (redo r ds).2 = objs ds ∧
  (∀ r', r' ≠ r →
     states (undo r ds).2 !! r' = states ds !! r' ∧
     states (redo r ds).2 !! r' = states ds !! r').
Proof.
  destruct (undo_room_kept r ds) as [H1 H2].
  destruct (redo_room_kept r ds) as [H3 H4].
  repeat split; try done.
  - apply undo_objs.
  - apply redo_objs.
  - by apply undo_states_ne.
  - by apply redo_states_ne.
Qed.

Lemma undo_redo_touch_only_arrays_witness :
  let ds := run (twoUsers ++ [StartDraw "other" "C" (brushAt 2 2) "id-4" 4])
              newDrawingState in
  states (undo "room" ds).2 !! "other" = states ds !! "other" ∧
  states (redo "room" ds).2 !! "other" = states ds !! "other".
Proof.
  destruct (undo_redo_touch_only_arrays
              (run (twoUsers ++ [StartDraw "other" "C" (brushAt 2 2) "id-4" 4])
                 newDrawingState) "room") as (_ & _ & _ & _ & _ & _ & H).
  apply H. discriminate.
Defined.

(** * More of the class: [getOperation], and what the arrays hold *)

Lemma getOperation_objs r i ds : objs (getOperation r i ds).2 = objs ds.
Proof.
  unfold getOperation.
  pose proof (getRoomState_objs r ds) as H.
  destruct (getRoomState r ds) as [st ds1]. simpl in H.
  by destruct (find (hasId ds1 i) (operations st)).
Qed.

Lemma getOperation_room r i ds r' : room (getOperation r i ds).2 r' = room ds r'.
Proof.
  unfold getOperation.
  pose proof (getRoomState_room r ds r') as H.
  destruct (getRoomState r ds) as [st ds1]. simpl in H.
  by destruct (find (hasId ds1 i) (operations st)).
Qed.

Lemma hasId_objs ds ds' i l : objs ds = objs ds' → hasId ds i l = hasId ds' i l.
Proof. intros E. unfold hasId, deref. by rewrite E. Qed.

Lemma find_app {A} (P : A → bool) (a b : list A) :
  find P (a ++ b) = match find P a with Some v => Some v | None => find P b end.
Proof. induction a as [|v a IH]; [done|]. simpl. by destruct (P v). Qed.

Lemma find_ext_eq {A} (P Q : A → bool) (a : list A) :
  (∀ v, P v = Q v) → find P a = find Q a.
Proof.
  intros E. induction a as [|v a IH]; [done|]. simpl. by rewrite E, IH.
Qed.

Lemma getOperation_fst r i ds :
  (getOperation r i ds).1 = find (hasId ds i) (held (room ds r)).
Proof.
  unfold getOperation, held. rewrite find_app.
  pose proof (getRoomState_fst r ds) as Hst.
  pose proof (getRoomState_objs r ds) as Ho.
  destruct (getRoomState r ds) as [st ds1]. simpl in Hst, Ho. subst st.
  rewrite (find_ext_eq _ _ (operations (room ds r))
             (λ l, hasId_objs ds1 ds i l Ho)).
  rewrite (find_ext_eq _ _ (undoStack (room ds r))
             (λ l, hasId_objs ds1 ds i l Ho)).
  by destruct (find (hasId ds i) (operations (room ds r))).
Qed.

Lemma hasId_true ds i l :
  hasId ds i l = true ↔ ∃ op, deref ds l = Some op ∧ id op = i.
Proof.
  unfold hasId. destruct (deref ds l) as [op|].
  - destruct (String.eqb_spec (id op) i); split; try done.
    + eauto.
    + intros (op' & [= <-] & ?). done.
  - split; [done|]. by intros (? & ? & _).
Qed.

Lemma find_unique {A} (P : A → bool) (a : list A) l :
  (∀ v w, v ∈ a → w ∈ a → P v = true → P w = true → v = w) →
  l ∈ a → P l = true → find P a = Some l.
Proof.
  intros Hu Hl HP. destruct (find P a) as [v|] eqn:E.
  - apply find_some in E as [Hv HPv]. apply list_elem_of_In in Hv.
    f_equal. by apply Hu.
  - apply list_elem_of_In in Hl.
    pose proof (find_none _ _ E l Hl). congruence.
Qed.

Lemma find_unique_perm {A} (P : A → bool) (a b : list A) :
  (∀ v w, v ∈ a → w ∈ a → P v = true → P w = true → v = w) →
  a ≡ₚ b → find P b = find P a.
Proof.
  intros Hu Hp. destruct (find P a) as [l|] eqn:E.
  - apply find_some in E as [Hl HP]. apply list_elem_of_In in Hl.
    apply find_unique; [|by rewrite <- Hp|done].
    intros v w Hv Hw. rewrite <- Hp in Hv, Hw. by apply Hu.
  - destruct (find P b) as [l|] eqn:E'; [|done].
    apply find_some in E' as [Hl HP]. apply list_elem_of_In in Hl.
    rewrite <- Hp in Hl. apply list_elem_of_In in Hl.
    pose proof (find_none _ _ E l Hl). congruence.
Qed.

Lemma ids_injective ds l l' op op' :
  NoDup (id <$> objs ds) →
  deref ds l = Some op → deref ds l' = Some op' → id op = id op' → l = l'.
Proof.
  unfold deref, ref. intros Hnd H1 H2 E.
  eapply (NoDup_lookup _ l l' (id op) Hnd).
  - rewrite list_lookup_fmap. by rewrite H1.
  - rewrite list_lookup_fmap. by rewrite H2, E.
Qed.

Lemma hasId_unique ds i (a : list ref) :
  NoDup (id <$> objs ds) →
  ∀ v w, v ∈ a → w ∈ a → hasId ds i v = true → hasId ds i w = true → v = w.
Proof.
  intros Hnd v w _ _ (op & Hv & Ev)%hasId_true (op' & Hw & Ew)%hasId_true.
  eapply ids_injective; eauto. congruence.
Qed.

Lemma reached_ids_NoDup cs :
  NoDup (omap uuidReading cs) → NoDup (id <$> objs (run cs newDrawingState)).
Proof.
  intros Hnd. destruct (run_ids cs newDrawingState) as (k & -> & Hk).
  simpl. by eapply sublist_NoDup.
Qed.

Lemma effect_held c ds ds' r1 :
  effect c ds ds' →
  held (room ds' r1) ≡ₚ held (room ds r1) ∨
  (∃ l, currentOperation (room ds r1) = Some l ∧
        held (room ds' r1) ≡ₚ l :: held (room ds r1)) ∨
  held (room ds' r1) = [].
Proof.
  intros [Eo Er|r op rs _ _ _ Eo Er|r l op p Hcur Hop Eo Er
         |r l op _ Hcur Hop Eo Er|r a l Ea Eo Er|r a l _ Ea Eo Er
         |r Eo Er]; rewrite Er; try case_decide; subst; auto.
  - right. left. exists l. split; [done|]. unfold held. simpl.
    rewrite <- app_assoc. simpl. by rewrite <- Permutation_middle.
  - left. unfold held. simpl. rewrite Ea.
    rewrite <- !app_assoc. apply Permutation_app_head. simpl.
    by rewrite <- Permutation_cons_append.
  - left. unfold held. simpl. rewrite Ea.
    rewrite <- !app_assoc. apply Permutation_app_head. simpl.
    by rewrite <- Permutation_cons_append.
Qed.

Lemma heldOnce_effect c ds ds' :
  wf ds → effect c ds ds' → heldOnce ds → heldOnce ds'.
Proof.
  intros W E [Hnd Hx]. split.
  - intros r. destruct (effect_held c ds ds' r E) as [Hp|[(l & Hc & Hp)| ->]].
    + by rewrite Hp.
    + rewrite Hp. apply NoDup_cons. split; [|done]. by eapply wf_apart.
    + constructor.
  - intros r r' l H1 H2.
    destruct (effect_held c ds ds' r E) as [Hp|[(l1 & Hc & Hp)|Hp]];
      rewrite Hp in H1; [| |by apply elem_of_nil in H1].
    all: destruct (effect_held c ds ds' r' E) as [Hp'|[(l2 & Hc' & Hp')|Hp']];
      rewrite Hp' in H2; [| |by apply elem_of_nil in H2].
    + eauto.
    + apply elem_of_cons in H2 as [->|H2]; [|by eauto].
      by destruct (wf_apart _ W _ _ _ Hc' H1).
    + apply elem_of_cons in H1 as [->|H1]; [|by eauto].
      by destruct (wf_apart _ W _ _ _ Hc H2).
    + apply elem_of_cons in H1 as [->|H1];
        apply elem_of_cons in H2 as [->|H2].
      * by eapply wf_one_room.
      * by destruct (wf_apart _ W _ _ _ Hc H2).
      * by destruct (wf_apart _ W _ _ _ Hc' H1).
      * eauto.
Qed.

Lemma heldOnce_run cs ds : wf ds → heldOnce ds → heldOnce (run cs ds).
Proof.
  revert ds. induction cs as [|c cs IH]; intros ds W H; [done|].
  rewrite run_cons. apply IH; [by apply wf_step|].
  eapply heldOnce_effect; [done|apply step_effect|done].
Qed.

Lemma heldOnce_new : heldOnce newDrawingState.
Proof.
  split.
  - intros r. rewrite room_new. constructor.
  - intros r r' l. rewrite room_new. by intros ?%elem_of_nil.
Qed.

Lemma contents_ids_NoDup ds (a : list ref) :
  NoDup (id <$> objs ds) → NoDup a → NoDup (id <$> contents ds a).
Proof.
  intros Hi. unfold contents. induction 1 as [|l a Hl Ha IH]; [constructor|].
  simpl. destruct (deref ds l) as [op|] eqn:Hop; [|done]. simpl.
  apply NoDup_cons. split; [|done].
  intros (op' & E & (l' & Hl' & Hop')%list_elem_of_omap)%list_elem_of_fmap.
  assert (l = l') as -> by (eapply ids_injective; eauto).
  done.
Qed.

Lemma contents_length ds (a : list ref) :
  (∀ l, l ∈ a → (l < length (objs ds))%nat) →
  length (contents ds a) = length a.
Proof.
  unfold contents, deref. induction a as [|l a IH]; intros H; [done|].
  simpl. destruct (lookup_lt_is_Some_2 (objs ds) l) as [op Hop].
  { apply H. left. }
  unfold ref in *. rewrite Hop. simpl. f_equal. apply IH.
  intros l' Hl'. apply H. by right.
Qed.

Lemma undo_held r ds r' :
  held (room (undo r ds).2 r') ≡ₚ held (room ds r').
Proof.
  destruct (snoc_or_nil (operations (room ds r))) as [E|(a & l & E)].
  - destruct (undo_empty r ds E) as [_ ->]. done.
  - destruct (undo_snoc r ds a l E) as [_ ->]. case_decide; [subst|done].
    unfold held. simpl. rewrite E, <- !app_assoc.
    apply Permutation_app_head. simpl. by rewrite <- Permutation_cons_append.
Qed.

Lemma redo_held r ds r' :
  held (room (redo r ds).2 r') ≡ₚ held (room ds r').
Proof.
  destruct (snoc_or_nil (undoStack (room ds r))) as [E|(a & l & E)].
  - destruct (redo_empty r ds E) as [_ ->]. done.
  - destruct (redo_snoc r ds a l E) as [_ ->]. case_decide; [subst|done].
    unfold held. simpl. rewrite E, <- !app_assoc.
    apply Permutation_app_head. simpl. by rewrite <- Permutation_cons_append.
Qed.

(** * Further properties of the code *)

(** X1.  [getOperation] alters no room and no object.  In every state the
    class builds, what it returns is referenced by the committed log or the
    undo stack of the room asked, has the id asked for, and is no room's
    current operation; it returns [undefined] exactly when neither array of
    the room holds an operation of that id. *)
Theorem getOperation_sound cs r i :
  let ds := run cs newDrawingState in
  let res := getOperation r i ds in
  objs res.2 = objs ds ∧
  (∀ r', room res.2 r' = room ds r') ∧
  (∀ l, res.1 = Some l →
     l ∈ held (room ds r) ∧
     (∃ op, deref ds l = Some op ∧ id op = i) ∧
     ∀ r', currentOperation (room ds r') ≠ Some l) ∧
  (res.1 = None ↔
     ∀ l op, l ∈ held (room ds r) → deref ds l = Some op → id op ≠ i).
Proof.
  intros ds res. assert (W : wf ds) by apply wf_reached.
  split; [apply getOperation_objs|]. split; [apply getOperation_room|].
  unfold res. rewrite getOperation_fst. split; [|split].
  - intros l [Hl HP]%find_some. apply list_elem_of_In in Hl.
    split; [done|]. split; [by apply hasId_true|].
    intros r' Hc. by eapply wf_apart.
  - intros E l op Hl Hop Hi. apply list_elem_of_In in Hl.
    assert (hasId ds i l = true) as HP by (apply hasId_true; eauto).
    pose proof (find_none _ _ E l Hl). congruence.
  - intros H. destruct (find (hasId ds i) (held (room ds r))) as [l|] eqn:E;
      [|done].
    apply find_some in E as [Hl (op & Hop & Hi)%hasId_true].
    apply list_elem_of_In in Hl. by destruct (H l op).
Qed.

Lemma getOperation_sound_witness :
  let ds := run (oneStroke ++ begun) newDrawingState in
  0%nat ∈ held (room ds "room") ∧
  (∃ op, deref ds 0%nat = Some op ∧ id op = "id-1") ∧
  ∀ r', currentOperation (room ds r') ≠ Some 0%nat.
Proof.
  destruct (getOperation_sound (oneStroke ++ begun) "room" "id-1")
    as (_ & _ & H & _).
  apply (H 0%nat). vm_compute. reflexivity.
Defined.

(** X2.  When the [uuidv4()] values read are pairwise distinct, every
    operation of a room's committed log or undo stack is what [getOperation]
    returns for its id, from the [endDraw] that commits it on; the id of an
    operation still in progress is not found. *)
Theorem getOperation_finds_by_id cs r :
  NoDup (omap uuidReading cs) →
  let ds := run cs newDrawingState in
  (∀ l op, l ∈ held (room ds r) → deref ds l = Some op →
     (getOperation r (id op) ds).1 = Some l) ∧
  (∀ u l op, (endDraw r u ds).1 = Some l → deref ds l = Some op →
     (getOperation r (id op) (endDraw r u ds).2).1 = Some l) ∧
  (∀ r' l op, currentOperation (room ds r') = Some l → deref ds l = Some op →
     (getOperation r (id op) ds).1 = None).
Proof.
  intros Hnd ds.
  assert (W : wf ds) by apply wf_reached.
  assert (Hids : NoDup (id <$> objs ds)) by by apply reached_ids_NoDup.
  assert (Hfind : ∀ ds0 l op, NoDup (id <$> objs ds0) →
            l ∈ held (room ds0 r) → deref ds0 l = Some op →
            (getOperation r (id op) ds0).1 = Some l).
  { intros ds0 l op Hi Hl Hop. rewrite getOperation_fst.
    apply find_unique; [by apply hasId_unique|done|].
    apply hasId_true. eauto. }
  split; [|split].
  - intros l op. by apply Hfind.
  - intros u l op Hl Hop.
    destruct (currentOf (room ds r) u ds) as [l1|] eqn:Hc.
    + destruct (endDraw_owner r u ds l1 Hc) as [E Hr].
      rewrite E in Hl. injection Hl as ->.
      apply Hfind.
      * by rewrite endDraw_objs.
      * rewrite Hr. case_decide; [|done]. unfold held. simpl.
        rewrite !elem_of_app, list_elem_of_singleton. auto.
      * unfold deref. by rewrite endDraw_objs.
    + destruct (endDraw_none r u ds Hc) as [E _]. by rewrite E in Hl.
  - intros r' l op Hc Hop. rewrite getOperation_fst.
    destruct (find (hasId ds (id op)) (held (room ds r))) as [l'|] eqn:E;
      [|done].
    apply find_some in E as [Hl' (op' & Hop' & Hi)%hasId_true].
    apply list_elem_of_In in Hl'.
    assert (l' = l) as -> by (eapply ids_injective; eauto).
    by destruct (wf_apart _ W _ _ _ Hc Hl').
Qed.

Lemma getOperation_finds_by_id_witness :
  let ds := run (strokeAfterUndo ++ [EndDraw "room" "A"] ++
                 [StartDraw "room" "B" (brushAt 5 5) "id-3" 3])
              newDrawingState in
  (getOperation "room" "id-1" ds).1 = Some 0%nat ∧
  (getOperation "room" "id-3" (endDraw "room" "B" ds).2).1 = Some 2%nat ∧
  (getOperation "room" "id-3" ds).1 = None.
Proof.
  destruct (getOperation_finds_by_id
              (strokeAfterUndo ++ [EndDraw "room" "A"] ++
               [StartDraw "room" "B" (brushAt 5 5) "id-3" 3]) "room")
    as (H1 & H2 & H3).
  { apply (bool_decide_unpack _). vm_compute. exact I. }
  split; [|split].
  - apply (H1 0%nat (startOp "A" (brushAt 0 0) "id-1" 1)).
    + vm_compute. apply list_elem_of_further, list_elem_of_here.
    + vm_compute. reflexivity.
  - apply (H2 "B" 2%nat (startOp "B" (brushAt 5 5) "id-3" 3));
      vm_compute; reflexivity.
  - apply (H3 "room" 2%nat (startOp "B" (brushAt 5 5) "id-3" 3));
      vm_compute; reflexivity.
Defined.

(** X3.  When the [uuidv4()] values read are pairwise distinct, [undo] and
    [redo] do not change what [getOperation] returns, for any room and id:
    an operation stays reachable by its id while it moves between the
    committed log and the undo stack. *)
Theorem getOperation_across_undo_redo cs r r' i :
  NoDup (omap uuidReading cs) →
  let ds := run cs newDrawingState in
  (getOperation r' i (undo r ds).2).1 = (getOperation r' i ds).1 ∧
  (getOperation r' i (redo r ds).2).1 = (getOperation r' i ds).1.
Proof.
  intros Hnd ds.
  assert (Hids : NoDup (id <$> objs ds)) by by apply reached_ids_NoDup.
  rewrite !getOperation_fst. split.
  - rewrite (find_ext_eq _ (hasId ds i) _
               (λ l, hasId_objs _ ds i l (undo_objs r ds))).
    apply find_unique_perm; [by apply hasId_unique|].
    symmetry. apply undo_held.
  - rewrite (find_ext_eq _ (hasId ds i) _
               (λ l, hasId_objs _ ds i l (redo_objs r ds))).
    apply find_unique_perm; [by apply hasId_unique|].
    symmetry. apply redo_held.
Qed.

Lemma getOperation_across_undo_redo_witness :
  let ds := run (redoneLate ++ [Undo "room"]) newDrawingState in
  (getOperation "room" "id-3" (undo "room" ds).2).1 =
    (getOperation "room" "id-3" ds).1 ∧
  (getOperation "room" "id-3" (redo "room" ds).2).1 =
    (getOperation "room" "id-3" ds).1.
Proof.
  apply (getOperation_across_undo_redo (redoneLate ++ [Undo "room"])
           "room" "room" "id-3").
  apply (bool_decide_unpack _). vm_compute. exact I.
Defined.

(** X4.  In every state the class builds, an operation is in at most one
    place: no reference occurs twice in the committed log and undo stack of
    a room, no two rooms hold the same reference, and a room's current
    operation is in no array.  When the [uuidv4()] values read are pairwise
    distinct, the committed and the undone operations of a room have
    pairwise distinct ids. *)
Theorem operation_in_one_place cs :
  let ds := run cs newDrawingState in
  (∀ r, NoDup (operations (room ds r) ++ undoStack (room ds r))) ∧
  (∀ r r' l, l ∈ held (room ds r) → l ∈ held (room ds r') → r = r') ∧
  (∀ r r' l, currentOperation (room ds r) = Some l → l ∉ held (room ds r')) ∧
  (NoDup (omap uuidReading cs) →
   ∀ r, NoDup (id <$> (committed ds r ++ contents ds (undoStack (room ds r))))).
Proof.
  intros ds. assert (W : wf ds) by apply wf_reached.
  destruct (heldOnce_run cs newDrawingState wf_new heldOnce_new) as [H1 H2].
  split; [done|]. split; [done|]. split; [apply (wf_apart _ W)|].
  intros Hnd r. unfold committed, contents. rewrite <- omap_app.
  apply contents_ids_NoDup; [by apply reached_ids_NoDup|apply H1].
Qed.

Lemma operation_in_one_place_witness :
  let ds := run (redoneLate ++ [Undo "room"; Undo "room"; Redo "room";
                            StartDraw "room" "C" (brushAt 9 9) "id-9" 9])
              newDrawingState in
  "room" = "room" ∧
  (3%nat ∉ held (room ds "room")) ∧
  NoDup (id <$> (committed ds "room" ++
                 contents ds (undoStack (room ds "room")))).
Proof.
  destruct (operation_in_one_place
              (redoneLate ++ [Undo "room"; Undo "room"; Redo "room";
                            StartDraw "room" "C" (brushAt 9 9) "id-9" 9]))
    as (_ & H2 & H3 & H4).
  split; [|split].
  - apply (H2 "room" "room" 0%nat); vm_compute; apply list_elem_of_here.
  - apply (H3 "room" "room" 3%nat). vm_compute. reflexivity.
  - apply H4. apply (bool_decide_unpack _). vm_compute. exact I.
Defined.

(** X5.  [endDraw] takes the current operation out of the slot: right after
    an [endDraw] that committed an operation, an [endDraw] for any user in
    that room returns [null] and leaves the whole state as it is, so an
    operation is committed once. *)
Theorem endDraw_again_is_null ds r u l u' :
  (endDraw r u ds).1 = Some l →
  currentOperation (room (endDraw r u ds).2 r) = None ∧
  endDraw r u' (endDraw r u ds).2 = (None, (endDraw r u ds).2).
Proof.
  intros H.
  assert (Hp : ∃ st, states (endDraw r u ds).2 !! r = Some st ∧
                     currentOperation st = None).
  { revert H. unfold endDraw. destruct (getRoomState r ds) as [st ds1].
    destruct (currentOf st u ds1); [|done]. intros _.
    eexists. split; [apply lookup_insert_eq|done]. }
  destruct Hp as (st & Hst & Hc). split.
  - by rewrite room_lookup, Hst.
  - unfold endDraw at 1. rewrite (getRoomState_present _ _ _ Hst).
    unfold currentOf. by rewrite Hc.
Qed.

Lemma endDraw_again_is_null_witness :
  let ds := run begun newDrawingState in
  currentOperation (room (endDraw "room" "A" ds).2 "room") = None ∧
  endDraw "room" "A" (endDraw "room" "A" ds).2 =
    (None, (endDraw "room" "A" ds).2).
Proof.
  apply (endDraw_again_is_null (run begun newDrawingState)
           "room" "A" 0%nat "A").
  vm_compute. reflexivity.
Defined.

(** X6.  In a room whose undo stack is not empty, [redo] followed at once
    by [undo] gives back the committed log and the undo stack as they were,
    and [undo] returns the operation [redo] returned. *)
Theorem redo_undo_restores ds r :
  undoStack (room ds r) ≠ [] →
  let re := redo r ds in
  let un := undo r re.2 in
  ∃ a l,
    undoStack (room ds r) = a ++ [l] ∧
    re.1 = Some l ∧
    operations (room re.2 r) = operations (room ds r) ++ [l] ∧
    undoStack (room re.2 r) = a ∧
    un.1 = Some l ∧
    operations (room un.2 r) = operations (room ds r) ∧
    undoStack (room un.2 r) = undoStack (room ds r) ∧
    currentOperation (room un.2 r) = currentOperation (room ds r) ∧
    objs un.2 = objs ds.
Proof.
  intros Hne. simpl.
  destruct (snoc_or_nil (undoStack (room ds r))) as [E|(a & l & E)]; [done|].
  destruct (redo_snoc r ds a l E) as [Er Hr].
  assert (Eo : operations (room (redo r ds).2 r) = operations (room ds r) ++ [l]).
  { rewrite Hr. by case_decide. }
  destruct (undo_snoc r _ _ l Eo) as [Eu Hu].
  exists a, l. rewrite Hu, Hr, undo_objs, redo_objs.
  rewrite !decide_True by done. simpl. by rewrite E.
Qed.

Lemma redo_undo_restores_witness :
  let ds := run (oneStroke ++ [Undo "room"]) newDrawingState in
  ∃ a l,
    undoStack (room ds "room") = a ++ [l] ∧
    (redo "room" ds).1 = Some l ∧
    operations (room (redo "room" ds).2 "room") =
      operations (room ds "room") ++ [l] ∧
    undoStack (room (redo "room" ds).2 "room") = a ∧
    (undo "room" (redo "room" ds).2).1 = Some l ∧
    operations (room (undo "room" (redo "room" ds).2).2 "room") =
      operations (room ds "room") ∧
    undoStack (room (undo "room" (redo "room" ds).2).2 "room") =
      undoStack (room ds "room") ∧
    currentOperation (room (undo "room" (redo "room" ds).2).2 "room") =
      currentOperation (room ds "room") ∧
    objs (undo "room" (redo "room" ds).2).2 = objs ds.
Proof.
  apply (redo_undo_restores (run (oneStroke ++ [Undo "room"]) newDrawingState)
           "room").
  vm_compute. discriminate.
Defined.

Lemma setRoomState_states_ne r st ds r' :
  r' ≠ r → states (setRoomState r st ds) !! r' = states ds !! r'.
Proof. intros H. simpl. by rewrite lookup_insert_ne. Qed.

Lemma step_states_ne c ds r :
  roomOf c ≠ r → states (step ds c) !! r = states ds !! r.
Proof.
  intros Hne. assert (Hne' : r ≠ roomOf c) by done.
  destruct c as [r0 u d i t|r0 u px py i t|r0 u|r0|r0|r0|r0]; simpl in *.
  - unfold startDraw.
    pose proof (getRoomState_states_ne r0 ds r Hne') as H.
    destruct (getRoomState r0 ds) as [st ds1]. simpl in *.
    by rewrite lookup_insert_ne.
  - unfold addPoint.
    pose proof (getRoomState_states_ne r0 ds r Hne') as H.
    destruct (getRoomState r0 ds) as [st ds1]. simpl in *.
    destruct (currentOf st u ds1); simpl.
    + unfold pushPoint. by destruct (objs ds1 !! _).
    + by rewrite lookup_insert_ne.
  - unfold endDraw.
    pose proof (getRoomState_states_ne r0 ds r Hne') as H.
    destruct (getRoomState r0 ds) as [st ds1]. simpl in *.
    destruct (currentOf st u ds1); simpl; [|done].
    by rewrite lookup_insert_ne.
  - by apply undo_states_ne.
  - by apply redo_states_ne.
  - unfold clear.
    pose proof (getRoomState_states_ne r0 ds r Hne') as H.
    destruct (getRoomState r0 ds) as [st ds1]. simpl in *.
    by rewrite lookup_insert_ne.
  - unfold getState.
    pose proof (getRoomState_states_ne r0 ds r Hne') as H.
    by destruct (getRoomState r0 ds) as [st ds1].
Qed.

Lemma step_elsewhere_deref c ds r l :
  wf ds → roomOf c ≠ r →
  l ∈ held (room ds r) ∨ currentOperation (room ds r) = Some l →
  deref (step ds c) l = deref ds l.
Proof.
  intros W Hne [Hl|Hl].
  { by apply (effect_frozen c ds _ l (step_effect c ds)),
      (held_notCurrent ds r). }
  assert (Hlt : (l < length (objs ds))%nat) by by eapply wf_current.
  unfold deref.
  destruct c as [r0 u d i t|r0 u px py i t|r0 u|r0|r0|r0|r0]; simpl in *.
  - rewrite startDraw_objs. by apply lookup_app_l.
  - destruct (currentOf (room ds r0) u ds) as [l0|] eqn:Hc.
    + destruct (addPoint_owner r0 u px py i t ds l0 Hc)
        as (_ & (op & _ & _ & ->) & _).
      apply list_lookup_insert_ne. intros ->.
      apply currentOf_Some in Hc as [Hc _].
      by destruct Hne; eapply wf_one_room.
    + destruct (addPoint_fallback r0 u px py i t ds Hc) as (_ & -> & _).
      by apply lookup_app_l.
  - by rewrite endDraw_objs.
  - by rewrite undo_objs.
  - by rewrite redo_objs.
  - by rewrite clear_objs.
  - by rewrite getState_objs.
Qed.

Lemma room_states ds ds' r :
  states ds' !! r = states ds !! r → room ds' r = room ds r.
Proof. intros E. by rewrite !room_lookup, E. Qed.

(** X7.  Rooms are independent: calls made on other rooms leave a room's
    entry in the map exactly as it was (they do not even create it), and
    alter none of the operations the room refers to, committed, undone or in
    progress. *)
Theorem other_rooms_calls_leave_room pre cs r :
  forallb (λ c, negb (String.eqb (roomOf c) r)) cs = true →
  let ds := run pre newDrawingState in
  states (run cs ds) !! r = states ds !! r ∧
  ∀ l, l ∈ held (room ds r) ∨ currentOperation (room ds r) = Some l →
       deref (run cs ds) l = deref ds l.
Proof.
  intros Hcs ds. assert (W : wf ds) by apply wf_reached.
  clearbody ds. revert ds W.
  induction cs as [|c cs IH]; intros ds W; [done|].
  simpl in Hcs. apply andb_prop in Hcs as [Hc Hcs].
  assert (Hne : roomOf c ≠ r).
  { intros E. rewrite E, String.eqb_refl in Hc. done. }
  rewrite run_cons.
  destruct (IH Hcs (step ds c) (wf_step c ds W)) as [H1 H2].
  pose proof (step_states_ne c ds r Hne) as Hs.
  split; [by rewrite H1|].
  intros l Hl. rewrite H2.
  - by apply (step_elsewhere_deref c ds r).
  - by rewrite (room_states _ _ _ Hs).
Qed.

Lemma other_rooms_calls_leave_room_witness :
  let ds := run begun newDrawingState in
  let cs := [ StartDraw "other" "A" (brushAt 3 3) "id-5" 5;
              AddPoint "other" "A" 4 4 "id-6" 6; EndDraw "other" "A";
              Clear "third" ] in
  states (run cs ds) !! "room" = states ds !! "room" ∧
  deref (run cs ds) 0%nat = deref ds 0%nat.
Proof.
  destruct (other_rooms_calls_leave_room begun
              [ StartDraw "other" "A" (brushAt 3 3) "id-5" 5;
                AddPoint "other" "A" 4 4 "id-6" 6; EndDraw "other" "A";
                Clear "third" ] "room") as [H1 H2].
  { vm_compute. reflexivity. }
  split; [exact H1|]. apply H2. right. vm_compute. reflexivity.
Defined.

Lemma stroke_step r u l op c ds :
  wf ds → currentOperation (room ds r) = Some l → deref ds l = Some op →
  userId op = u → ownOrElsewhere r u c = true →
  room (step ds c) r = room ds r ∧
  deref (step ds c) l =
    Some (foldl withPoint op (submitted r u [c])).
Proof.
  intros W Hcur Hop Hu Hc.
  destruct (decide (roomOf c = r)) as [E|Hne].
  - destruct c as [r0 u0 d i t|r0 u0 px py i t|r0 u0|r0|r0|r0|r0];
      simpl in E, Hc; subst r0; rewrite ?String.eqb_refl in Hc; try done.
    simpl in Hc. apply String.eqb_eq in Hc as ->.
    assert (Hc : currentOf (room ds r) u ds = Some l).
    { unfold currentOf. rewrite Hcur, Hop, Hu. by rewrite String.eqb_refl. }
    destruct (addPoint_owner r u px py i t ds l Hc)
      as (_ & (op' & Hop' & _ & Eo) & Hr).
    assert (op' = op) as -> by congruence.
    simpl. split; [apply Hr|]. rewrite !String.eqb_refl. simpl.
    unfold deref. rewrite Eo. apply list_lookup_insert_eq.
    by eapply lookup_lt_Some.
  - split.
    + apply room_states. by apply step_states_ne.
    + rewrite (step_elsewhere_deref c ds r l W Hne) by auto.
      rewrite Hop. f_equal.
      assert (submitted r u [c] = []) as ->; [|done].
      unfold submitted. simpl.
      destruct c as [r0 u0 d i t|r0 u0 px py i t|r0 u0|r0|r0|r0|r0];
        simpl in *; try done.
      all: apply String.eqb_neq in Hne; by rewrite Hne.
Qed.

Lemma submitted_cons r u c cs :
  submitted r u (c :: cs) = submitted r u [c] ++ submitted r u cs.
Proof. unfold submitted. simpl. by destruct (_ : option Point). Qed.

Lemma withPoint_userId op pts : userId (foldl withPoint op pts) = userId op.
Proof. revert op. induction pts as [|p pts IH]; intros op; [done|]. simpl. by rewrite IH. Qed.

Lemma stroke_run r u l cs : ∀ ds op,
  wf ds → currentOperation (room ds r) = Some l → deref ds l = Some op →
  userId op = u → forallb (ownOrElsewhere r u) cs = true →
  room (run cs ds) r = room ds r ∧
  deref (run cs ds) l = Some (foldl withPoint op (submitted r u cs)).
Proof.
  induction cs as [|c cs IH]; intros ds op W Hcur Hop Hu Hcs; [done|].
  simpl in Hcs. apply andb_prop in Hcs as [Hc Hcs].
  destruct (stroke_step r u l op c ds W Hcur Hop Hu Hc) as [Hr Hd].
  rewrite run_cons, submitted_cons, foldl_app.
  destruct (IH (step ds c) (foldl withPoint op (submitted r u [c])))
    as [Hr' Hd']; try done.
  - by apply wf_step.
  - by rewrite Hr.
  - by rewrite withPoint_userId.
  - split; [by rewrite Hr', Hr|done].
Qed.

Lemma foldl_withPoint op pts :
  foldl withPoint op pts =
  {| id := id op; userId := userId op; tool := tool op; color := color op;
     strokeWidth := strokeWidth op; points := points op ++ pts;
     timestamp := timestamp op |}.
Proof.
  revert op. induction pts as [|p pts IH]; intros op.
  - simpl. rewrite app_nil_r. by destruct op.
  - simpl. rewrite IH. simpl. by rewrite <- app_assoc.
Qed.

(** X8.  A stroke drawn without another user's calls on its room arrives
    whole: after [startDraw], while the only calls on the room are
    [addPoint]s of the same user (calls on other rooms may come in between),
    [endDraw] commits the very operation [startDraw] returned, at the end of
    the room's log, with the id, tool, color, width and timestamp given at
    the start and exactly the points sent, in the order sent. *)
Theorem lone_stroke_arrives_whole pre r u d i t cs :
  forallb (ownOrElsewhere r u) cs = true →
  let ds := run pre newDrawingState in
  let began := startDraw r u d i t ds in
  let fin := endDraw r u (run cs began.2) in
  fin.1 = Some began.1 ∧
  deref fin.2 began.1 =
    Some {| id := i; userId := u; tool := data_tool d;
            color := data_color d; strokeWidth := data_strokeWidth d;
            points := {| x := data_x d; y := data_y d |} :: submitted r u cs;
            timestamp := t |} ∧
  operations (room fin.2 r) = operations (room ds r) ++ [began.1] ∧
  undoStack (room fin.2 r) = undoStack (room ds r).
Proof.
  intros Hcs ds began fin.
  assert (W : wf began.2).
  { unfold began. apply (wf_step (StartDraw r u d i t)), wf_reached. }
  assert (Hcur : currentOperation (room began.2 r) = Some began.1).
  { unfold began. rewrite startDraw_room, startDraw_fst. by case_decide. }
  assert (Hop : deref began.2 began.1 = Some (startOp u d i t)).
  { unfold began, deref. rewrite startDraw_fst, startDraw_objs.
    by rewrite lookup_app_r, Nat.sub_diag. }
  destruct (stroke_run r u began.1 cs began.2 _ W Hcur Hop eq_refl Hcs)
    as [Hr Hd].
  assert (Hc : currentOf (room (run cs began.2) r) u (run cs began.2)
               = Some began.1).
  { unfold currentOf. rewrite Hr, Hcur, Hd, withPoint_userId. simpl.
    by rewrite String.eqb_refl. }
  destruct (endDraw_owner r u _ _ Hc) as [E1 E2].
  unfold fin. rewrite E1, E2. case_decide; [simpl|done].
  rewrite Hr. unfold deref. rewrite endDraw_objs.
  unfold deref in Hd. rewrite Hd, foldl_withPoint. simpl.
  unfold began. rewrite startDraw_room. by case_decide.
Qed.

Lemma lone_stroke_arrives_whole_witness :
  let ds := run oneStroke newDrawingState in
  let cs := [ AddPoint "room" "B" 6 6 "id-4" 4;
              StartDraw "other" "A" (brushAt 3 3) "id-5" 5;
              AddPoint "room" "B" 7 7 "id-6" 6;
              Undo "other" ] in
  let began := startDraw "room" "B" (brushAt 5 5) "id-3" 3 ds in
  let fin := endDraw "room" "B" (run cs began.2) in
  fin.1 = Some began.1 ∧
  deref fin.2 began.1 =
    Some {| id := "id-3"; userId := "B"; tool := "brush";
            color := "#ff0000"; strokeWidth := 3;
            points := {| x := 5; y := 5 |} :: submitted "room" "B" cs;
            timestamp := 3 |} ∧
  operations (room fin.2 "room") = operations (room ds "room") ++ [began.1] ∧
  undoStack (room fin.2 "room") = undoStack (room ds "room").
Proof.
  apply (lone_stroke_arrives_whole oneStroke "room" "B" (brushAt 5 5) "id-3" 3
           [ AddPoint "room" "B" 6 6 "id-4" 4;
             StartDraw "other" "A" (brushAt 3 3) "id-5" 5;
             AddPoint "room" "B" 7 7 "id-6" 6;
             Undo "other" ]).
  vm_compute. reflexivity.
Defined.

Lemma step_redoStack c ds :
  (∀ r, redoStack (room ds r) = []) →
  ∀ r, redoStack (room (step ds c) r) = [].
Proof.
  intros H r.
  destruct c as [r0 u d i t|r0 u px py i t|r0 u|r0|r0|r0|r0]; simpl.
  - rewrite startDraw_room. case_decide; [done|apply H].
  - destruct (currentOf (room ds r0) u ds) as [l|] eqn:Hc.
    + destruct (addPoint_owner r0 u px py i t ds l Hc) as (_ & _ & ->).
      apply H.
    + destruct (addPoint_fallback r0 u px py i t ds Hc) as (_ & _ & ->).
      case_decide; apply H.
  - destruct (currentOf (room ds r0) u ds) as [l|] eqn:Hc.
    + destruct (endDraw_owner r0 u ds l Hc) as [_ ->].
      case_decide; apply H.
    + destruct (endDraw_none r0 u ds Hc) as [_ ->]. apply H.
  - destruct (decide (r0 = r)) as [->|Hne].
    + destruct (undo_room_kept r ds) as [_ ->]. apply H.
    + rewrite (room_states ds _ r); [apply H|]. by apply undo_states_ne.
  - destruct (decide (r0 = r)) as [->|Hne].
    + destruct (redo_room_kept r ds) as [_ ->]. apply H.
    + rewrite (room_states ds _ r); [apply H|]. by apply redo_states_ne.
  - rewrite clear_room. case_decide; [done|apply H].
  - rewrite getState_room. apply H.
Qed.

(** X9.  [redoStack] is never anything but empty: in every state the class
    builds, for every room, the field holds no operation, whatever was
    undone or redone. *)
Theorem redoStack_stays_empty cs r :
  redoStack (room (run cs newDrawingState) r) = [].
Proof.
  assert (H : ∀ ds, (∀ r, redoStack (room ds r) = []) →
                    ∀ r, redoStack (room (run cs ds) r) = []).
  { induction cs as [|c cs IH]; intros ds H; [done|].
    rewrite run_cons. by apply IH, step_redoStack. }
  apply H. intros r'. by rewrite room_new.
Qed.

Lemma effect_sameStroke c ds ds' l op :
  effect c ds ds' → deref ds l = Some op →
  ∃ op', deref ds' l = Some op' ∧ sameStroke op op' ∧
         points op `prefix_of` points op'.
Proof.
  intros E Hl. unfold deref in *.
  destruct E as [Eo Er|r op1 rs _ _ _ Eo Er|r l' op1 p Hcur Hop Eo Er
                |r l' op1 _ Hcur Hop Eo Er|r a l' Ea Eo Er|r a l' _ Ea Eo Er
                |r Eo Er]; rewrite Eo.
  all: try (by exists op).
  - exists op. by rewrite lookup_app_l by by eapply lookup_lt_Some.
  - destruct (decide (l' = l)) as [->|Hne].
    + exists (withPoint op p).
      unfold deref in Hop. rewrite Hl in Hop. injection Hop as <-.
      rewrite list_lookup_insert_eq by by eapply lookup_lt_Some.
      repeat split. by apply prefix_app_r.
    + exists op. by rewrite list_lookup_insert_ne.
Qed.

Lemma run_sameStroke cs : ∀ ds l op,
  deref ds l = Some op →
  ∃ op', deref (run cs ds) l = Some op' ∧ sameStroke op op' ∧
         points op `prefix_of` points op'.
Proof.
  induction cs as [|c cs IH]; intros ds l op H.
  { by exists op. }
  rewrite run_cons.
  destruct (effect_sameStroke c ds _ l op (step_effect c ds) H)
    as (op1 & H1 & S1 & P1).
  destruct (IH _ _ _ H1) as (op2 & H2 & S2 & P2).
  exists op2. split; [done|]. split; [|by etrans].
  destruct S1 as (?&?&?&?&?&?), S2 as (?&?&?&?&?&?).
  repeat split; congruence.
Qed.

Lemma effect_allDrawn c ds ds' : effect c ds ds' → allDrawn ds → allDrawn ds'.
Proof.
  unfold allDrawn.
  intros [Eo Er|r op rs _ _ Hp Eo Er|r l op p Hcur Hop Eo Er
         |r l op _ Hcur Hop Eo Er|r a l Ea Eo Er|r a l _ Ea Eo Er
         |r Eo Er] H; rewrite Eo; try done.
  - apply Forall_app. split; [done|]. by constructor.
  - apply Forall_insert; [done|]. simpl. by destruct (points op).
Qed.

Lemma allDrawn_run cs ds : allDrawn ds → allDrawn (run cs ds).
Proof.
  revert ds. induction cs as [|c cs IH]; intros ds H; [done|].
  rewrite run_cons. apply IH. eapply effect_allDrawn; [apply step_effect|done].
Qed.

(** X10.  Operation objects are append-only.  Whatever calls follow, an
    object of the store is still there with the same id, user, tool, color,
    width and timestamp, and the points it had are a prefix of the points it
    has; an operation that is in a committed log or an undo stack is not
    altered at all any more, also not by [undo] and [redo] moving it.  No
    operation of the store is without a point. *)
Theorem operations_append_only pre post l op :
  let ds := run pre newDrawingState in
  deref ds l = Some op →
  points op ≠ [] ∧
  (∃ op', deref (run post ds) l = Some op' ∧ sameStroke op op' ∧
          points op `prefix_of` points op') ∧
  (∀ r, l ∈ held (room ds r) → deref (run post ds) l = Some op).
Proof.
  intros ds Hop. assert (W : wf ds) by apply wf_reached.
  split; [|split].
  - assert (H : allDrawn ds) by (apply allDrawn_run; constructor).
    unfold allDrawn in H. rewrite Forall_forall in H. apply H.
    apply list_elem_of_lookup. by exists l.
  - by apply run_sameStroke.
  - intros r Hl.
    destruct (run_frozen post ds l (held_notCurrent ds r l W Hl)) as [_ ->].
    done.
Qed.

Lemma operations_append_only_witness :
  let ds := run (oneStroke ++ begun) newDrawingState in
  let post := [ AddPoint "room" "A" 2 2 "id-4" 4; Undo "room";
                EndDraw "room" "A"; Redo "room" ] in
  (∃ op', deref (run post ds) 1%nat = Some op' ∧
          sameStroke (startOp "A" (brushAt 0 0) "id-1" 1) op' ∧
          points (startOp "A" (brushAt 0 0) "id-1" 1) `prefix_of` points op') ∧
  deref (run post ds) 0%nat = deref ds 0%nat.
Proof.
  split.
  - apply (operations_append_only (oneStroke ++ begun)
             [ AddPoint "room" "A" 2 2 "id-4" 4; Undo "room";
               EndDraw "room" "A"; Redo "room" ]
             1%nat (startOp "A" (brushAt 0 0) "id-1" 1)).
    vm_compute. reflexivity.
  - destruct (operations_append_only (oneStroke ++ begun)
             [ AddPoint "room" "A" 2 2 "id-4" 4; Undo "room";
               EndDraw "room" "A"; Redo "room" ]
             0%nat (withPoint (startOp "A" (brushAt 0 0) "id-1" 1)
                      {| x := 10; y := 10 |})) as (_ & _ & H).
    { vm_compute. reflexivity. }
    rewrite (H "room"); [vm_compute; reflexivity|].
    vm_compute. apply list_elem_of_here.
Defined.

(** * The room manager *)

Section JsMaps.
Context {V : Type}.
Implicit Types (m : list (string * V)) (k : string) (v : V).

Lemma map_get_set_eq k v m : JsMap.map_get k (JsMap.map_set k v m) = Some v.
Proof.
  induction m as [|[k' v'] m IH]; simpl.
  - by rewrite String.eqb_refl.
  - destruct (String.eqb_spec k' k); simpl.
    + by rewrite String.eqb_refl.
    + by destruct (String.eqb_spec k' k).
Qed.

Lemma map_get_set_ne k k0 v m :
  k0 ≠ k → JsMap.map_get k0 (JsMap.map_set k v m) = JsMap.map_get k0 m.
Proof.
  intros Hne. induction m as [|[k' v'] m IH]; simpl.
  - by destruct (String.eqb_spec k k0).
  - destruct (String.eqb_spec k' k) as [->|]; simpl.
    + destruct (String.eqb_spec k k0); [by subst|done].
    + by destruct (String.eqb_spec k' k0).
Qed.

Lemma map_get_None k m : JsMap.map_get k m = None ↔ k ∉ m.*1.
Proof.
  induction m as [|[k' v'] m IH]; simpl.
  - split; [intros _; apply not_elem_of_nil|done].
  - rewrite not_elem_of_cons. destruct (String.eqb_spec k' k) as [->|].
    + split; [done|]. by intros [[] _].
    + rewrite IH. split; [|tauto]. intros H. split; [congruence|done].
Qed.

Lemma map_get_Some k v m :
  JsMap.map_get k m = Some v → (k, v) ∈ m.
Proof.
  induction m as [|[k' v'] m IH]; simpl; [done|].
  destruct (String.eqb_spec k' k) as [->|].
  - intros [= ->]. left.
  - intros H. right. by apply IH.
Qed.

Lemma map_set_new k v m :
  k ∉ m.*1 → JsMap.map_set k v m = m ++ [(k, v)].
Proof.
  induction m as [|[k' v'] m IH]; simpl; [done|].
  rewrite not_elem_of_cons. intros [Hne Hk].
  destruct (String.eqb_spec k' k); [congruence|]. by rewrite IH.
Qed.

Lemma map_set_keys k v m :
  k ∈ m.*1 → (JsMap.map_set k v m).*1 = m.*1.
Proof.
  induction m as [|[k' v'] m IH]; cbn [JsMap.map_set].
  - by intros ?%elem_of_nil.
  - destruct (String.eqb_spec k' k) as [->|Hne]; [done|].
    rewrite !fmap_cons. intros [?|Hk]%elem_of_cons; [done|]. by rewrite IH.
Qed.

Lemma map_delete_absent k m : k ∉ m.*1 → JsMap.map_delete k m = m.
Proof.
  induction m as [|[k' v'] m IH]; simpl; [done|].
  rewrite not_elem_of_cons. intros [Hne Hk].
  destruct (String.eqb_spec k' k); [congruence|]. by rewrite IH.
Qed.

Lemma map_delete_snoc k v m :
  k ∉ m.*1 → JsMap.map_delete k (m ++ [(k, v)]) = m.
Proof.
  induction m as [|[k' v'] m IH]; simpl.
  - by rewrite String.eqb_refl.
  - rewrite not_elem_of_cons. intros [Hne Hk].
    destruct (String.eqb_spec k' k); [congruence|]. by rewrite IH.
Qed.

Lemma map_delete_sublist k m : JsMap.map_delete k m `sublist_of` m.
Proof.
  induction m as [|[k' v'] m IH]; simpl; [done|].
  destruct (String.eqb k' k); [by apply sublist_cons|by apply sublist_skip].
Qed.

Lemma map_delete_get_eq k m :
  NoDup m.*1 → JsMap.map_get k (JsMap.map_delete k m) = None.
Proof.
  induction m as [|[k' v'] m IH]; simpl; [done|].
  intros [Hk Hnd]%NoDup_cons.
  destruct (String.eqb_spec k' k) as [->|Hne]; simpl.
  - by apply map_get_None.
  - destruct (String.eqb_spec k' k); [done|]. by apply IH.
Qed.

Lemma map_delete_get_ne k k0 m :
  k0 ≠ k → JsMap.map_get k0 (JsMap.map_delete k m) = JsMap.map_get k0 m.
Proof.
  intros Hne. induction m as [|[k' v'] m IH]; simpl; [done|].
  destruct (String.eqb_spec k' k) as [->|]; simpl.
  - by destruct (String.eqb_spec k k0); [subst|].
  - by destruct (String.eqb_spec k' k0).
Qed.

End JsMaps.

Lemma roomOk_set k n c (m : list (string * Rooms.User)) :
  (m = [] ∨ Rooms.roomOk m) →
  Rooms.roomOk
    (JsMap.map_set k {| Rooms.id := k; Rooms.name := n; Rooms.color := c |} m).
Proof.
  intros H.
  assert (Hnd : NoDup m.*1 ∧ Forall (λ kv, Rooms.id kv.2 = kv.1) m).
  { destruct H as [->|(_ & ? & ?)]; [|done]. split; constructor. }
  destruct Hnd as [Hnd Hid]. split; [|split].
  - destruct m as [|[k' v'] m]; simpl; [done|]. by destruct (String.eqb k' k).
  - destruct (decide (k ∈ m.*1)) as [Hk|Hk].
    + by rewrite map_set_keys.
    + rewrite map_set_new, fmap_app by done. simpl.
      apply NoDup_app. split; [done|]. split; [|apply NoDup_singleton].
      intros k' Hk' ->%list_elem_of_singleton. done.
  - clear H Hnd. induction Hid as [|[k' v'] m Hkv Hid IH]; simpl.
    + by repeat constructor.
    + destruct (String.eqb_spec k' k); constructor; try done.
Qed.

Lemma roomOk_delete k (m : list (string * Rooms.User)) :
  Rooms.roomOk m → JsMap.map_delete k m ≠ [] →
  Rooms.roomOk (JsMap.map_delete k m).
Proof.
  intros (_ & Hnd & Hid) Hne. split; [done|]. split.
  - pose proof (fmap_sublist fst _ _ (map_delete_sublist k m)) as Hs.
    exact (sublist_NoDup _ _ Hnd Hs).
  - rewrite Forall_forall in *. intros kv Hkv. apply Hid.
    eapply elem_of_sublist; [done|apply map_delete_sublist].
Qed.

Section RoomManager.
Implicit Types (rooms : gmap string (list (string * Rooms.User))).

Lemma joinRoom_eq r u n c rooms :
  Rooms.joinRoom r u n c rooms =
  <[r := JsMap.map_set u
           {| Rooms.id := u; Rooms.name := n; Rooms.color := c |}
           (default [] (rooms !! r))]> rooms.
Proof.
  unfold Rooms.joinRoom. destruct (rooms !! r) as [m|] eqn:E; simpl.
  - by rewrite E.
  - by rewrite lookup_insert_eq, insert_insert_eq.
Qed.

Lemma rooms_wf_join r u n c rooms :
  Rooms.wf rooms → Rooms.wf (Rooms.joinRoom r u n c rooms).
Proof.
  intros W r' m. rewrite joinRoom_eq, lookup_insert.
  case_decide; [|by apply W]. intros [= <-]. apply roomOk_set.
  destruct (rooms !! r) as [m|] eqn:E; simpl; [right|by left].
  by apply (W r).
Qed.

Lemma rooms_wf_leave r u rooms :
  Rooms.wf rooms → Rooms.wf (Rooms.leaveRoom r u rooms).
Proof.
  intros W r' m. unfold Rooms.leaveRoom.
  destruct (rooms !! r) as [m0|] eqn:E; [|by apply W].
  destruct (Nat.eqb_spec (length (JsMap.map_delete u m0)) 0) as [Hl|Hl].
  - rewrite lookup_delete. case_decide; [done|by apply W].
  - rewrite lookup_insert. case_decide; [|by apply W].
    intros [= <-]. apply roomOk_delete; [by apply (W r)|].
    intros Hnil. by rewrite Hnil in Hl.
Qed.

Lemma rooms_wf_run cs rooms : Rooms.wf rooms → Rooms.wf (Rooms.run cs rooms).
Proof.
  revert rooms. induction cs as [|c cs IH]; intros rooms W; [done|].
  simpl. apply IH. destruct c; [by apply rooms_wf_join|by apply rooms_wf_leave].
Qed.

Lemma rooms_wf_new : Rooms.wf Rooms.newRoomManager.
Proof. intros r m. unfold Rooms.newRoomManager. by rewrite lookup_empty. Qed.

Lemma map_get_Some_iff {V} k (v : V) (m : list (string * V)) :
  NoDup m.*1 → JsMap.map_get k m = Some v ↔ (k, v) ∈ m.
Proof.
  intros Hnd. split; [apply map_get_Some|].
  induction m as [|[k' v'] m IH]; simpl.
  - by intros ?%elem_of_nil.
  - apply NoDup_cons in Hnd as [Hk Hnd].
    intros [[= <- <-]|Hin]%elem_of_cons.
    + by rewrite String.eqb_refl.
    + destruct (String.eqb_spec k' k) as [->|]; [|by apply IH].
      destruct Hk. apply list_elem_of_fmap. by exists (k, v).
Qed.

(** X11.  [joinRoom] is an upsert: afterwards [getUser] returns, for the
    user who joined, the record with the id, name and color given, whether
    the user was in the room before or not; every other user of the room and
    every other room are as before. *)
Theorem joinRoom_then_getUser rooms r u n c :
  Rooms.getUser r u (Rooms.joinRoom r u n c rooms) =
    Some {| Rooms.id := u; Rooms.name := n; Rooms.color := c |} ∧
  (∀ u', u' ≠ u →
     Rooms.getUser r u' (Rooms.joinRoom r u n c rooms) =
     Rooms.getUser r u' rooms) ∧
  (∀ r', r' ≠ r → Rooms.joinRoom r u n c rooms !! r' = rooms !! r').
Proof.
  rewrite joinRoom_eq. unfold Rooms.getUser. rewrite lookup_insert_eq.
  split; [apply map_get_set_eq|]. split.
  - intros u' Hne. rewrite map_get_set_ne by done.
    by destruct (rooms !! r).
  - intros r' Hne. by rewrite lookup_insert_ne.
Qed.

Lemma joinRoom_then_getUser_witness :
  let rooms := Rooms.run [Rooms.JoinRoom "default" "s1" "User s1" "#FF0000";
                          Rooms.JoinRoom "default" "s2" "User s2" "#00FF00"]
                 Rooms.newRoomManager in
  Rooms.getUser "default" "s2"
    (Rooms.joinRoom "default" "s1" "User s1" "#0000FF" rooms) =
    Rooms.getUser "default" "s2" rooms ∧
  Rooms.joinRoom "default" "s1" "User s1" "#0000FF" rooms !! "other" =
    rooms !! "other".
Proof.
  destruct (joinRoom_then_getUser
              (Rooms.run [Rooms.JoinRoom "default" "s1" "User s1" "#FF0000";
                          Rooms.JoinRoom "default" "s2" "User s2" "#00FF00"]
                 Rooms.newRoomManager)
              "default" "s1" "User s1" "#0000FF") as (_ & H2 & H3).
  split; [apply H2|apply H3]; discriminate.
Defined.
End RoomManager.

Lemma room_ids_keys (m : list (string * Rooms.User)) :
  Forall (λ kv, Rooms.id kv.2 = kv.1) m → Rooms.id <$> m.*2 = m.*1.
Proof.
  induction 1 as [|[k v] m Hkv _ IH]; [done|].
  rewrite !fmap_cons. simpl in *. by rewrite IH, Hkv.
Qed.

Section RoomManagerRuns.
Implicit Types (rooms : gmap string (list (string * Rooms.User))).

(** X12.  In every state the room manager builds, after [leaveRoom] the
    user is no member of the room; the other users of the room and the other
    rooms are as before; a room whose only member leaves is removed from the
    map; and [leaveRoom] for a user who is no member of the room (or for a
    room that does not exist) changes nothing. *)
Theorem leaveRoom_removes cs r u :
  let rooms := Rooms.run cs Rooms.newRoomManager in
  Rooms.getUser r u (Rooms.leaveRoom r u rooms) = None ∧
  (∀ u', u' ≠ u →
     Rooms.getUser r u' (Rooms.leaveRoom r u rooms) =
     Rooms.getUser r u' rooms) ∧
  (∀ r', r' ≠ r → Rooms.leaveRoom r u rooms !! r' = rooms !! r') ∧
  (Rooms.id <$> Rooms.getRoomUsers r rooms = [u] →
     Rooms.leaveRoom r u rooms !! r = None) ∧
  (Rooms.getUser r u rooms = None → Rooms.leaveRoom r u rooms = rooms).
Proof.
  intros rooms.
  assert (W : Rooms.wf rooms) by apply rooms_wf_run, rooms_wf_new.
  unfold Rooms.getUser, Rooms.leaveRoom, Rooms.getRoomUsers.
  destruct (rooms !! r) as [m|] eqn:E; [|by rewrite E].
  destruct (W r m E) as (Hne & Hnd & Hid).
  destruct (Nat.eqb_spec (length (JsMap.map_delete u m)) 0) as [Hl|Hl].
  - apply nil_length_inv in Hl. rewrite lookup_delete_eq.
    split; [done|]. split; [|split; [|split]].
    + intros u' Hu'. rewrite <- (map_delete_get_ne u u' m Hu'). by rewrite Hl.
    + intros r' Hr'. by rewrite lookup_delete_ne.
    + done.
    + intros Hg. apply map_get_None in Hg.
      rewrite map_delete_absent in Hl by done. done.
  - rewrite lookup_insert_eq. split; [by apply map_delete_get_eq|].
    split; [|split; [|split]].
    + intros u' Hu'. by apply map_delete_get_ne.
    + intros r' Hr'. by rewrite lookup_insert_ne.
    + intros Hu. destruct Hl.
      assert (Hk : m.*1 = [u]) by by rewrite <- Hu, room_ids_keys.
      destruct m as [|[k v] [|? ?]]; try done. simpl in Hk.
      injection Hk as ->. simpl. by rewrite String.eqb_refl.
    + intros Hg. apply map_get_None in Hg.
      rewrite map_delete_absent by done. by apply insert_id.
Qed.

Lemma leaveRoom_removes_witness :
  let rooms := Rooms.run [Rooms.JoinRoom "default" "s1" "User s1" "#FF0000";
                          Rooms.JoinRoom "default" "s2" "User s2" "#00FF00";
                          Rooms.LeaveRoom "default" "s1"]
                 Rooms.newRoomManager in
  Rooms.getUser "default" "s1" (Rooms.leaveRoom "default" "s2" rooms) =
    Rooms.getUser "default" "s1" rooms ∧
  Rooms.leaveRoom "default" "s2" rooms !! "other" = rooms !! "other" ∧
  Rooms.leaveRoom "default" "s2" rooms !! "default" = None ∧
  Rooms.leaveRoom "default" "s1" rooms = rooms.
Proof.
  destruct (leaveRoom_removes
              [Rooms.JoinRoom "default" "s1" "User s1" "#FF0000";
               Rooms.JoinRoom "default" "s2" "User s2" "#00FF00";
               Rooms.LeaveRoom "default" "s1"] "default" "s2")
    as (_ & H2 & H3 & H4 & _).
  destruct (leaveRoom_removes
              [Rooms.JoinRoom "default" "s1" "User s1" "#FF0000";
               Rooms.JoinRoom "default" "s2" "User s2" "#00FF00";
               Rooms.LeaveRoom "default" "s1"] "default" "s1")
    as (_ & _ & _ & _ & H5).
  split; [|split; [|split]].
  - apply H2. discriminate.
  - apply H3. discriminate.
  - apply H4. vm_compute. reflexivity.
  - apply H5. vm_compute. reflexivity.
Defined.

(** X13.  In every state the room manager builds, a room of the map has at
    least one member (a room is dropped when its last member leaves) and
    [getRoomUsers] lists no user id twice; [getRoomUsers] is empty exactly
    for the rooms that are not in the map; and [getUser] returns a user
    exactly when [getRoomUsers] lists that user under that id. *)
Theorem rooms_never_empty cs r :
  let rooms := Rooms.run cs Rooms.newRoomManager in
  NoDup (Rooms.id <$> Rooms.getRoomUsers r rooms) ∧
  (Rooms.getRoomUsers r rooms = [] ↔ rooms !! r = None) ∧
  (∀ u v, Rooms.getUser r u rooms = Some v ↔
          v ∈ Rooms.getRoomUsers r rooms ∧ Rooms.id v = u).
Proof.
  intros rooms.
  assert (W : Rooms.wf rooms) by apply rooms_wf_run, rooms_wf_new.
  unfold Rooms.getUser, Rooms.getRoomUsers.
  destruct (rooms !! r) as [m|] eqn:E.
  2:{ split; [constructor|]. split; [done|]. intros u v. split; [done|].
      by intros [?%elem_of_nil _]. }
  destruct (W r m E) as (Hne & Hnd & Hid).
  assert (Hkeys : Rooms.id <$> m.*2 = m.*1) by by apply room_ids_keys.
  rewrite Hkeys. split; [done|]. split.
  - split; [|done]. by destruct m.
  - intros u v. rewrite map_get_Some_iff by done.
    rewrite Forall_forall in Hid. split.
    + intros Hin. split; [|by apply (Hid (u, v))].
      apply list_elem_of_fmap. by exists (u, v).
    + intros [([k v'] & -> & Hin)%list_elem_of_fmap Hu]. simpl in *.
      pose proof (Hid _ Hin) as Hk. simpl in Hk. by rewrite <- Hu, Hk.
Qed.

Lemma rooms_never_empty_witness :
  let rooms := Rooms.run [Rooms.JoinRoom "default" "s1" "User s1" "#FF0000";
                          Rooms.JoinRoom "default" "s2" "User s2" "#00FF00";
                          Rooms.JoinRoom "default" "s1" "User s1" "#0000FF"]
                 Rooms.newRoomManager in
  {| Rooms.id := "s1"; Rooms.name := "User s1"; Rooms.color := "#0000FF" |}
    ∈ Rooms.getRoomUsers "default" rooms ∧
  Rooms.getRoomUsers "other" rooms = [].
Proof.
  destruct (rooms_never_empty
              [Rooms.JoinRoom "default" "s1" "User s1" "#FF0000";
               Rooms.JoinRoom "default" "s2" "User s2" "#00FF00";
               Rooms.JoinRoom "default" "s1" "User s1" "#0000FF"] "default")
    as (_ & _ & H3).
  destruct (rooms_never_empty
              [Rooms.JoinRoom "default" "s1" "User s1" "#FF0000";
               Rooms.JoinRoom "default" "s2" "User s2" "#00FF00";
               Rooms.JoinRoom "default" "s1" "User s1" "#0000FF"] "other")
    as (_ & H2 & _).
  split.
  - apply (H3 "s1"). vm_compute. reflexivity.
  - apply H2. vm_compute. reflexivity.
Defined.
(** X14.  [getRoomUsers] lists the users in the order in which they first
    joined: in every state the room manager builds, a user who was not in the
    room is added at the end of the list, and a user who joins again keeps
    the place in the list (with the name and color given last). *)
Theorem joinRoom_order cs r u n c :
  let rooms := Rooms.run cs Rooms.newRoomManager in
  (Rooms.getUser r u rooms = None →
     Rooms.getRoomUsers r (Rooms.joinRoom r u n c rooms) =
     Rooms.getRoomUsers r rooms ++
       [{| Rooms.id := u; Rooms.name := n; Rooms.color := c |}]) ∧
  (Rooms.getUser r u rooms ≠ None →
     Rooms.id <$> Rooms.getRoomUsers r (Rooms.joinRoom r u n c rooms) =
     Rooms.id <$> Rooms.getRoomUsers r rooms).
Proof.
  intros rooms.
  assert (W : Rooms.wf rooms) by apply rooms_wf_run, rooms_wf_new.
  pose proof (rooms_wf_join r u n c rooms W) as W'.
  revert W'. rewrite joinRoom_eq. intros W'.
  unfold Rooms.getUser, Rooms.getRoomUsers. rewrite lookup_insert_eq.
  destruct (rooms !! r) as [m|] eqn:E; simpl.
  - split.
    + intros Hg%map_get_None. by rewrite map_set_new, fmap_app.
    + intros Hg. assert (Hk : u ∈ m.*1).
      { destruct (decide (u ∈ m.*1)) as [|Hno]; [done|].
        by apply map_get_None in Hno. }
      destruct (W r m E) as (_ & _ & Hid).
      destruct (W' r _ (lookup_insert_eq _ _ _)) as (_ & _ & Hid').
      by rewrite !room_ids_keys, map_set_keys.
  - split; [done|]. by intros [].
Qed.

Lemma joinRoom_order_witness :
  let rooms := Rooms.run [Rooms.JoinRoom "default" "s1" "User s1" "#FF0000";
                          Rooms.JoinRoom "default" "s2" "User s2" "#00FF00"]
                 Rooms.newRoomManager in
  Rooms.getRoomUsers "default"
    (Rooms.joinRoom "default" "s3" "User s3" "#0000FF" rooms) =
    Rooms.getRoomUsers "default" rooms ++
      [{| Rooms.id := "s3"; Rooms.name := "User s3";
          Rooms.color := "#0000FF" |}] ∧
  Rooms.id <$> Rooms.getRoomUsers "default"
                 (Rooms.joinRoom "default" "s1" "Again" "#0000FF" rooms) =
    Rooms.id <$> Rooms.getRoomUsers "default" rooms.
Proof.
  split.
  - apply (joinRoom_order
             [Rooms.JoinRoom "default" "s1" "User s1" "#FF0000";
              Rooms.JoinRoom "default" "s2" "User s2" "#00FF00"]
             "default" "s3" "User s3" "#0000FF").
    vm_compute. reflexivity.
  - apply (joinRoom_order
             [Rooms.JoinRoom "default" "s1" "User s1" "#FF0000";
              Rooms.JoinRoom "default" "s2" "User s2" "#00FF00"]
             "default" "s1" "Again" "#0000FF").
    vm_compute. discriminate.
Defined.

(** X15.  In every state the room manager builds, a user who is not in a
    room and joins it, then leaves it, leaves the whole manager as it was
    before: the room is dropped again if the join created it, and the other
    members keep their places. *)
Theorem joinRoom_leaveRoom_restores cs r u n c :
  let rooms := Rooms.run cs Rooms.newRoomManager in
  Rooms.getUser r u rooms = None →
  Rooms.leaveRoom r u (Rooms.joinRoom r u n c rooms) = rooms.
Proof.
  intros rooms.
  assert (W : Rooms.wf rooms) by apply rooms_wf_run, rooms_wf_new.
  rewrite joinRoom_eq. unfold Rooms.getUser, Rooms.leaveRoom.
  rewrite lookup_insert_eq.
  destruct (rooms !! r) as [m|] eqn:E; simpl.
  - intros Hg%map_get_None. destruct (W r m E) as (Hne & _ & _).
    rewrite map_set_new, map_delete_snoc by done.
    destruct (Nat.eqb_spec (length m) 0) as [Hl|Hl].
    + by apply nil_length_inv in Hl.
    + rewrite insert_insert_eq. by apply insert_id.
  - intros _. rewrite String.eqb_refl. simpl. by apply delete_insert_id.
Qed.

Lemma joinRoom_leaveRoom_restores_witness :
  let rooms := Rooms.run [Rooms.JoinRoom "default" "s1" "User s1" "#FF0000";
                          Rooms.JoinRoom "default" "s2" "User s2" "#00FF00"]
                 Rooms.newRoomManager in
  Rooms.leaveRoom "default" "s3"
    (Rooms.joinRoom "default" "s3" "User s3" "#0000FF" rooms) = rooms ∧
  Rooms.leaveRoom "other" "s3"
    (Rooms.joinRoom "other" "s3" "User s3" "#0000FF" rooms) = rooms.
Proof.
  split.
  - apply (joinRoom_leaveRoom_restores
             [Rooms.JoinRoom "default" "s1" "User s1" "#FF0000";
              Rooms.JoinRoom "default" "s2" "User s2" "#00FF00"]
             "default" "s3" "User s3" "#0000FF").
    vm_compute. reflexivity.
  - apply (joinRoom_leaveRoom_restores
             [Rooms.JoinRoom "default" "s1" "User s1" "#FF0000";
              Rooms.JoinRoom "default" "s2" "User s2" "#00FF00"]
             "other" "s3" "User s3" "#0000FF").
    vm_compute. reflexivity.
Defined.
End RoomManagerRuns.

(** * The server *)

Lemma handle_drawingState q sv :
  Server.drawingState (Server.handle q sv).2 =
  run (drawingCalls q) (Server.drawingState sv).
Proof.
  destruct q; simpl; try done.
  - unfold Server.onConnection. by destruct (getState _ _).
  - unfold Server.onDrawStart. by destruct (startDraw _ _ _ _ _ _).
  - unfold Server.onDrawMove. by destruct (addPoint _ _ _ _ _ _ _).
  - unfold Server.onDrawEnd. by destruct (endDraw _ _ _).
  - unfold Server.onUndo. by destruct (undo _ _).
  - unfold Server.onRedo. by destruct (redo _ _).
Qed.

Lemma handle_roomManager q sv :
  Server.roomManager (Server.handle q sv).2 =
  Rooms.run (roomCalls q) (Server.roomManager sv).
Proof.
  destruct q; simpl; try done.
  - unfold Server.onConnection. by destruct (getState _ _).
  - unfold Server.onDrawStart. by destruct (startDraw _ _ _ _ _ _).
  - unfold Server.onDrawMove. by destruct (addPoint _ _ _ _ _ _ _).
  - unfold Server.onDrawEnd. by destruct (endDraw _ _ _).
  - unfold Server.onUndo. by destruct (undo _ _).
  - unfold Server.onRedo. by destruct (redo _ _).
Qed.

Lemma serve_cons q qs sv :
  Server.serve (q :: qs) sv = Server.serve qs (Server.handle q sv).2.
Proof. done. Qed.

Lemma serve_drawingState qs sv :
  Server.drawingState (Server.serve qs sv) =
  run (qs ≫= drawingCalls) (Server.drawingState sv).
Proof.
  revert sv. induction qs as [|q qs IH]; intros sv; [done|].
  rewrite serve_cons, IH, handle_drawingState. simpl. by rewrite run_app.
Qed.

Lemma rooms_run_app cs cs' (rooms : gmap string (list (string * Rooms.User))) :
  Rooms.run (cs ++ cs') rooms = Rooms.run cs' (Rooms.run cs rooms).
Proof. apply foldl_app. Qed.

Lemma serve_roomManager qs sv :
  Server.roomManager (Server.serve qs sv) =
  Rooms.run (qs ≫= roomCalls) (Server.roomManager sv).
Proof.
  revert sv. induction qs as [|q qs IH]; intros sv; [done|].
  rewrite serve_cons, IH, handle_roomManager. simpl.
  by rewrite rooms_run_app.
Qed.

Lemma run_states_only r cs : ∀ ds,
  Forall (λ c, roomOf c = r) cs →
  ∀ r', r' ≠ r → states (run cs ds) !! r' = states ds !! r'.
Proof.
  induction cs as [|c cs IH]; intros ds H r' Hne; [done|].
  apply Forall_cons in H as [Hc H]. rewrite run_cons, IH by done.
  apply step_states_ne. congruence.
Qed.

Lemma rooms_run_only r cs : ∀ (rooms : gmap string (list (string * Rooms.User))),
  Forall (λ c, match c with
               | Rooms.JoinRoom r0 _ _ _ | Rooms.LeaveRoom r0 _ => r0 = r
               end) cs →
  ∀ r', r' ≠ r → Rooms.run cs rooms !! r' = rooms !! r'.
Proof.
  induction cs as [|c cs IH]; intros rooms H r' Hne; [done|].
  apply Forall_cons in H as [Hc H]. simpl. rewrite IH by done.
  destruct c as [r0 u n c|r0 u]; subst r0; simpl.
  - rewrite joinRoom_eq. by rewrite lookup_insert_ne.
  - unfold Rooms.leaveRoom. destruct (rooms !! r); [|done].
    destruct (_ =? _)%nat; [by rewrite lookup_delete_ne|].
    by rewrite lookup_insert_ne.
Qed.

(** X16.  The server keeps every socket in the one room "default".  After
    any requests, its drawing state is the state the calls of the requests
    on [DrawingState] build, its room manager the one their calls on
    [RoomManager] build, and neither has an entry for another room. *)
Theorem server_one_room qs :
  let sv := Server.serve qs Server.newServer in
  Server.drawingState sv = run (qs ≫= drawingCalls) newDrawingState ∧
  Server.roomManager sv = Rooms.run (qs ≫= roomCalls) Rooms.newRoomManager ∧
  ∀ r, r ≠ "default" →
       states (Server.drawingState sv) !! r = None ∧
       Server.roomManager sv !! r = None.
Proof.
  intros sv. unfold sv. rewrite serve_drawingState, serve_roomManager.
  split; [done|]. split; [done|]. intros r Hne. split.
  - rewrite (run_states_only "default"); [done| |done].
    apply Forall_forall. intros c (q & Hc & _)%list_elem_of_bind.
    destruct q; simpl in Hc; try (by apply elem_of_nil in Hc);
      by apply list_elem_of_singleton in Hc as ->.
  - rewrite (rooms_run_only "default"); [done| |done].
    apply Forall_forall. intros c (q & Hc & _)%list_elem_of_bind.
    destruct q; simpl in Hc; try (by apply elem_of_nil in Hc);
      by apply list_elem_of_singleton in Hc as ->.
Qed.

Lemma server_one_room_witness :
  let sv := Server.serve [ Server.Connect "s1" "#FF0000";
                           Server.DrawStart "s1" (brushAt 0 0) "id-1" 1;
                           Server.DrawEnd "s1"; Server.Undo;
                           Server.Disconnect "s1" ] Server.newServer in
  states (Server.drawingState sv) !! "room" = None ∧
  Server.roomManager sv !! "room" = None.
Proof.
  destruct (server_one_room [ Server.Connect "s1" "#FF0000";
                              Server.DrawStart "s1" (brushAt 0 0) "id-1" 1;
                              Server.DrawEnd "s1"; Server.Undo;
                              Server.Disconnect "s1" ]) as (_ & _ & H).
  apply H. discriminate.
Defined.

Lemma contents_objs ds ds' (a : list ref) :
  objs ds = objs ds' → contents ds a = contents ds' a.
Proof. intros E. unfold contents, deref. by rewrite E. Qed.

Lemma contents_snoc_inv ds (a : list ref) k op :
  (∀ l, l ∈ a → (l < length (objs ds))%nat) →
  contents ds a = k ++ [op] →
  ∃ a' l, a = a' ++ [l] ∧ contents ds a' = k ∧ deref ds l = Some op.
Proof.
  intros Hv E. destruct (snoc_or_nil a) as [->|(a' & l & ->)].
  { by destruct k. }
  destruct (lookup_lt_is_Some_2 (objs ds) l) as [op' Hop'].
  { apply Hv. rewrite elem_of_app, list_elem_of_singleton. auto. }
  unfold contents in E. rewrite omap_app in E. simpl in E.
  unfold deref at 2 in E. unfold ref in *. rewrite Hop' in E. simpl in E.
  apply app_inj_tail in E as [E ->]. by exists a', l.
Qed.

Lemma idOf_deref ds l op : deref ds l = Some op → Server.idOf ds l = id op.
Proof. unfold Server.idOf. by intros ->. Qed.

Lemma userIdOf_deref ds l op :
  deref ds l = Some op → Server.userIdOf ds l = userId op.
Proof. unfold Server.userIdOf. by intros ->. Qed.

Lemma server_wf qs : wf (Server.drawingState (Server.serve qs Server.newServer)).
Proof. rewrite serve_drawingState. apply wf_reached. Qed.

(** X17.  What the server broadcasts on undo and redo.  In every state the
    server reaches: on [undo], if the committed log of the room is empty
    nothing is emitted; otherwise exactly one [undo] event goes to the whole
    room, carrying the id and the author of the last operation of the log,
    and the log is left without that operation.  On [redo], if nothing is
    undone nothing is emitted; otherwise one [redo] event goes to the whole
    room with the id and the author of the operation undone last, which is
    then the last of the log. *)
Theorem server_undo_redo_broadcast qs :
  let sv := Server.serve qs Server.newServer in
  let ds := Server.drawingState sv in
  let un := Server.onUndo sv in
  let re := Server.onRedo sv in
  (committed ds "default" = [] →
     un.1 = [] ∧ committed (Server.drawingState un.2) "default" = []) ∧
  (∀ k op, committed ds "default" = k ++ [op] →
     un.1 = [(Server.ToRoom, Server.ev_undo (id op) (userId op))] ∧
     committed (Server.drawingState un.2) "default" = k) ∧
  (contents ds (undoStack (room ds "default")) = [] →
     re.1 = [] ∧
     committed (Server.drawingState re.2) "default" = committed ds "default") ∧
  (∀ k op, contents ds (undoStack (room ds "default")) = k ++ [op] →
     re.1 = [(Server.ToRoom, Server.ev_redo (id op) (userId op))] ∧
     committed (Server.drawingState re.2) "default" =
       committed ds "default" ++ [op]).
Proof.
  intros sv ds un re. assert (W : wf ds) by apply server_wf.
  assert (Hops : ∀ l, l ∈ operations (room ds "default") →
                      (l < length (objs ds))%nat).
  { intros l Hl. apply (wf_held _ W "default"), elem_of_held. auto. }
  assert (Hund : ∀ l, l ∈ undoStack (room ds "default") →
                      (l < length (objs ds))%nat).
  { intros l Hl. apply (wf_held _ W "default"), elem_of_held. auto. }
  unfold un, re, Server.onUndo, Server.onRedo, Server.roomId. fold ds.
  pose proof (undo_objs "default" ds) as Hou.
  pose proof (redo_objs "default" ds) as Hor.
  split; [|split; [|split]].
  - intros E. unfold committed in E.
    assert (E' : operations (room ds "default") = []).
    { apply nil_length_inv. rewrite <- (contents_length ds), E by done. done. }
    destruct (undo_empty "default" ds E') as [H1 H2]. revert H1 H2.
    destruct (undo "default" ds) as [o ds']. simpl. intros -> H2.
    split; [done|]. unfold committed. by rewrite H2, E'.
  - intros k op (a & l & E' & Ek & Hop)%contents_snoc_inv; [|done].
    destruct (undo_snoc "default" ds a l E') as [H1 H2]. revert Hou H1 H2.
    destruct (undo "default" ds) as [o ds']. simpl. intros Hou -> H2.
    assert (Hop' : deref ds' l = Some op) by (unfold deref; by rewrite Hou).
    rewrite (idOf_deref _ _ _ Hop'), (userIdOf_deref _ _ _ Hop').
    split; [done|]. unfold committed. rewrite H2. simpl.
    by rewrite (contents_objs ds' ds).
  - intros E.
    assert (E' : undoStack (room ds "default") = []).
    { apply nil_length_inv. rewrite <- (contents_length ds), E by done. done. }
    destruct (redo_empty "default" ds E') as [H1 H2]. revert Hor H1 H2.
    destruct (redo "default" ds) as [o ds']. simpl. intros Hor -> H2.
    split; [done|]. unfold committed. rewrite H2.
    by apply contents_objs.
  - intros k op (a & l & E' & Ek & Hop)%contents_snoc_inv; [|done].
    destruct (redo_snoc "default" ds a l E') as [H1 H2]. revert Hor H1 H2.
    destruct (redo "default" ds) as [o ds']. simpl. intros Hor -> H2.
    assert (Hop' : deref ds' l = Some op) by (unfold deref; by rewrite Hor).
    rewrite (idOf_deref _ _ _ Hop'), (userIdOf_deref _ _ _ Hop').
    split; [done|]. unfold committed. rewrite H2. simpl.
    rewrite (contents_objs ds' ds) by done. unfold contents.
    rewrite omap_app. simpl. by rewrite Hop.
Qed.

Lemma server_undo_redo_broadcast_witness :
  let qs := [ Server.Connect "s1" "#FF0000";
              Server.DrawStart "s1" (brushAt 0 0) "id-1" 1;
              Server.DrawEnd "s1";
              Server.DrawStart "s1" (brushAt 1 1) "id-2" 2;
              Server.DrawEnd "s1"; Server.Undo ] in
  let sv := Server.serve qs Server.newServer in
  (Server.onUndo sv).1 = [(Server.ToRoom, Server.ev_undo "id-1" "s1")] ∧
  (Server.onRedo sv).1 = [(Server.ToRoom, Server.ev_redo "id-2" "s1")] ∧
  (Server.onUndo (Server.onUndo sv).2).1 = [] ∧
  (Server.onRedo (Server.onRedo sv).2).1 = [].
Proof.
  destruct (server_undo_redo_broadcast
              [ Server.Connect "s1" "#FF0000";
                Server.DrawStart "s1" (brushAt 0 0) "id-1" 1;
                Server.DrawEnd "s1";
                Server.DrawStart "s1" (brushAt 1 1) "id-2" 2;
                Server.DrawEnd "s1"; Server.Undo ]) as (_ & H2 & _ & H4).
  destruct (server_undo_redo_broadcast
              [ Server.Connect "s1" "#FF0000";
                Server.DrawStart "s1" (brushAt 0 0) "id-1" 1;
                Server.DrawEnd "s1";
                Server.DrawStart "s1" (brushAt 1 1) "id-2" 2;
                Server.DrawEnd "s1"; Server.Undo; Server.Undo ])
    as (H1 & _ & _ & _).
  destruct (server_undo_redo_broadcast
              [ Server.Connect "s1" "#FF0000";
                Server.DrawStart "s1" (brushAt 0 0) "id-1" 1;
                Server.DrawEnd "s1";
                Server.DrawStart "s1" (brushAt 1 1) "id-2" 2;
                Server.DrawEnd "s1"; Server.Undo; Server.Redo ])
    as (_ & _ & H3 & _).
  split; [|split; [|split]].
  - apply (H2 [] (startOp "s1" (brushAt 0 0) "id-1" 1)).
    vm_compute. reflexivity.
  - apply (H4 [] (startOp "s1" (brushAt 1 1) "id-2" 2)).
    vm_compute. reflexivity.
  - apply H1. vm_compute. reflexivity.
  - apply H3. vm_compute. reflexivity.
Defined.

(** X18.  What a socket receives when it connects.  In every state the
    server reaches, the connection emits [init] to the socket and then
    [userJoined] to the others.  [init] carries the committed log of the
    room as it is, and the users of the room after the join, among them the
    user of the socket, with no id twice.  The drawing state is not
    altered.  When the [uuidv4()] values read are pairwise distinct, the
    stroke in progress in the room, if any, is not among the operations
    sent. *)
Theorem server_init_snapshot qs u c :
  let sv := Server.serve qs Server.newServer in
  let ds := Server.drawingState sv in
  let res := Server.onConnection u c sv in
  let users := Rooms.getRoomUsers "default" (Server.roomManager res.2) in
  res.1 =
    [ (Server.ToSocket,
       Server.ev_init u (Server.userNameOf u) c "default"
         (committed ds "default") users);
      (Server.ToOthers, Server.ev_userJoined u (Server.userNameOf u) c) ] ∧
  {| Rooms.id := u; Rooms.name := Server.userNameOf u; Rooms.color := c |}
    ∈ users ∧
  NoDup (Rooms.id <$> users) ∧
  objs (Server.drawingState res.2) = objs ds ∧
  (∀ r, room (Server.drawingState res.2) r = room ds r) ∧
  (NoDup (omap uuidReading (qs ≫= drawingCalls)) →
   ∀ l op, currentOperation (room ds "default") = Some l →
           deref ds l = Some op →
           id op ∉ (id <$> committed ds "default")).
Proof.
  intros sv ds res users. assert (W : wf ds) by apply server_wf.
  assert (Wr : Rooms.wf (Rooms.joinRoom "default" u (Server.userNameOf u) c
                           (Server.roomManager sv))).
  { apply rooms_wf_join. unfold sv. rewrite serve_roomManager.
    apply rooms_wf_run, rooms_wf_new. }
  unfold users, res, Server.onConnection, Server.roomId. fold ds.
  pose proof (getState_fst "default" ds) as H1.
  pose proof (getState_objs "default" ds) as H2.
  pose proof (getState_room "default" ds) as H3.
  destruct (getState "default" ds) as [cst ds']. simpl in *. subst cst.
  split; [|split; [|split; [|split; [|split]]]]; try done.
  - unfold committed. by rewrite (contents_objs ds' ds).
  - revert Wr. rewrite joinRoom_eq. intros Wr.
    unfold Rooms.getRoomUsers. rewrite lookup_insert_eq.
    apply list_elem_of_fmap. exists (u, {| Rooms.id := u;
      Rooms.name := Server.userNameOf u; Rooms.color := c |}).
    split; [done|]. apply map_get_Some, map_get_set_eq.
  - unfold Rooms.getRoomUsers.
    destruct (Rooms.joinRoom _ _ _ _ _ !! "default") as [m|] eqn:E;
      [|constructor].
    destruct (Wr _ _ E) as (_ & Hnd & Hid). by rewrite room_ids_keys.
  - intros Hnd l op Hc Hop
      (op' & Hi & (l' & Hl' & Hop')%list_elem_of_omap)%list_elem_of_fmap.
    assert (Hids : NoDup (id <$> objs ds)).
    { unfold ds, sv. rewrite serve_drawingState. by apply reached_ids_NoDup. }
    assert (l = l') as <- by (eapply ids_injective; eauto).
    apply (wf_apart _ W _ "default" _ Hc), elem_of_held. auto.
Qed.

Lemma server_init_snapshot_witness :
  let qs := [ Server.Connect "s1" "#FF0000";
              Server.DrawStart "s1" (brushAt 0 0) "id-1" 1;
              Server.DrawEnd "s1";
              Server.DrawStart "s1" (brushAt 1 1) "id-2" 2 ] in
  let ds := Server.drawingState (Server.serve qs Server.newServer) in
  "id-2" ∉ (id <$> committed ds "default").
Proof.
  destruct (server_init_snapshot
              [ Server.Connect "s1" "#FF0000";
                Server.DrawStart "s1" (brushAt 0 0) "id-1" 1;
                Server.DrawEnd "s1";
                Server.DrawStart "s1" (brushAt 1 1) "id-2" 2 ] "s2" "#00FF00")
    as (_ & _ & _ & _ & _ & H).
  assert (Hnd : NoDup (omap uuidReading
            ([ Server.Connect "s1" "#FF0000";
               Server.DrawStart "s1" (brushAt 0 0) "id-1" 1;
               Server.DrawEnd "s1";
               Server.DrawStart "s1" (brushAt 1 1) "id-2" 2 ]
             ≫= drawingCalls))).
  { apply (bool_decide_unpack _). vm_compute. exact I. }
  apply (H Hnd 1%nat (startOp "s1" (brushAt 1 1) "id-2" 2));
    vm_compute; reflexivity.
Defined.

Lemma emitted_app qs qs' sv :
  emitted (qs ++ qs') sv = emitted qs sv ++ emitted qs' (Server.serve qs sv).
Proof.
  revert sv. induction qs as [|q qs IH]; intros sv; [done|].
  rewrite <- app_comm_cons. cbn [emitted]. by rewrite IH, app_assoc.
Qed.

Lemma serve_app qs qs' sv :
  Server.serve (qs ++ qs') sv = Server.serve qs' (Server.serve qs sv).
Proof. apply foldl_app. Qed.

Lemma drawing_currentOf u i ds :
  drawing u i ds →
  ∃ l op, currentOf (room ds "default") u ds = Some l ∧
          deref ds l = Some op ∧ id op = i ∧ userId op = u.
Proof.
  intros (l & op & Hc & Hop & Hi & Hu). exists l, op.
  unfold currentOf. unfold Server.roomId in Hc.
  by rewrite Hc, Hop, Hu, String.eqb_refl.
Qed.

Lemma Forall_pair {A} (P : A → Prop) v w : P v → P w → Forall P [v; w].
Proof. by repeat constructor. Qed.

Lemma beside_step u i q sv :
  drawing u i (Server.drawingState sv) → besideStroke u q = true →
  drawing u i (Server.drawingState (Server.handle q sv).2) ∧
  Forall (aboutStroke i) (Server.handle q sv).1.
Proof.
  intros Hd Hq. destruct q as [u' c'| |u' px py i' t'| |u' c' px py| | | |u'];
    try done; simpl.
  - unfold Server.onConnection, Server.roomId.
    pose proof (getState_objs "default" (Server.drawingState sv)) as H2.
    pose proof (getState_room "default" (Server.drawingState sv)) as H3.
    destruct (getState _ _) as [cst ds']. simpl in *. split.
    + destruct Hd as (l & op & Hc & Hop & Hi & Hu). exists l, op.
      unfold Server.roomId, deref in *. by rewrite H3, H2.
    + apply Forall_pair; by left.
  - simpl in Hq. apply String.eqb_eq in Hq as ->.
    destruct (drawing_currentOf _ _ _ Hd) as (l & op & Hc & Hop & Hi & Hu).
    destruct (addPoint_owner "default" u px py i' t' _ l Hc)
      as (E1 & (op' & Hop' & _ & Eo) & Hr).
    assert (op' = op) as -> by congruence.
    unfold Server.onDrawMove, Server.roomId. revert E1 Eo Hr.
    destruct (addPoint _ _ _ _ _ _ _) as [o ds']. simpl. intros -> Eo Hr.
    assert (Hop2 : deref ds' l = Some (withPoint op {| x := px; y := py |})).
    { unfold deref. rewrite Eo. apply list_lookup_insert_eq.
      by eapply lookup_lt_Some. }
    split.
    + exists l, (withPoint op {| x := px; y := py |}).
      unfold Server.roomId. rewrite Hr. apply currentOf_Some in Hc as [Hc _].
      done.
    + apply Forall_singleton. unfold aboutStroke. simpl. right.
      rewrite (idOf_deref _ _ _ Hop2). simpl. by rewrite Hi.
  - split; [done|]. apply Forall_singleton. by left.
  - split; [done|]. apply Forall_singleton. by left.
Qed.

Lemma beside_run u i qs : ∀ sv,
  drawing u i (Server.drawingState sv) →
  forallb (besideStroke u) qs = true →
  drawing u i (Server.drawingState (Server.serve qs sv)) ∧
  Forall (aboutStroke i) (emitted qs sv).
Proof.
  induction qs as [|q qs IH]; intros sv Hd Hqs; [done|].
  simpl in Hqs. apply andb_prop in Hqs as [Hq Hqs].
  destruct (beside_step u i q sv Hd Hq) as [Hd' Hout].
  destruct (IH _ Hd' Hqs) as [Hd'' Hout'].
  rewrite serve_cons. split; [done|]. simpl. by apply Forall_app.
Qed.

(** X19.  The events of one stroke carry one id.  Whatever state the server
    is in, when a socket sends [drawStart], then moves (while other sockets
    only move their cursors, connect or disconnect), then [drawEnd]: the
    [drawStart] event goes to the socket and to the others with the id
    [uuidv4()] gave; every [drawMove] and the final [drawEnd], emitted to
    the socket and to the others, carry that same id; and the operation of
    that id and that user is then the last of the committed log. *)
Theorem server_stroke_one_id sv u d i t moves :
  forallb (besideStroke u) moves = true →
  let stroke := Server.DrawStart u d i t :: moves ++ [Server.DrawEnd u] in
  Forall (aboutStroke i) (emitted stroke sv) ∧
  (∃ out, emitted stroke sv =
     [ (Server.ToSocket, Server.ev_drawStart d u i);
       (Server.ToOthers, Server.ev_drawStart d u i) ] ++ out ++
     [ (Server.ToSocket, Server.ev_drawEnd u i);
       (Server.ToOthers, Server.ev_drawEnd u i) ]) ∧
  (∃ op, last (committed (Server.drawingState (Server.serve stroke sv))
                "default") = Some op ∧ id op = i ∧ userId op = u).
Proof.
  intros Hm stroke. unfold stroke.
  set (ds := Server.drawingState sv).
  (* drawStart *)
  assert (Hs : (Server.handle (Server.DrawStart u d i t) sv).1 =
               [ (Server.ToSocket, Server.ev_drawStart d u i);
                 (Server.ToOthers, Server.ev_drawStart d u i) ] ∧
               drawing u i (Server.drawingState
                 (Server.handle (Server.DrawStart u d i t) sv).2)).
  { simpl. unfold Server.onDrawStart, Server.roomId. fold ds.
    pose proof (startDraw_fst "default" u d i t ds) as H1.
    pose proof (startDraw_objs "default" u d i t ds) as H2.
    pose proof (startDraw_room "default" u d i t ds "default") as H3.
    destruct (startDraw _ _ _ _ _ _) as [o ds']. simpl in *. subst o.
    assert (Hop : deref ds' (length (objs ds)) = Some (startOp u d i t)).
    { unfold deref. by rewrite H2, lookup_app_r, Nat.sub_diag. }
    rewrite (idOf_deref _ _ _ Hop). split; [done|].
    exists (length (objs ds)), (startOp u d i t).
    unfold Server.roomId. rewrite H3. first [by case_decide|done]. }
  destruct Hs as [Hs Hd].
  destruct (beside_run u i moves _ Hd Hm) as [Hd' Hout].
  (* drawEnd *)
  set (sv1 := Server.serve moves (Server.handle (Server.DrawStart u d i t) sv).2)
    in *.
  assert (He : (Server.handle (Server.DrawEnd u) sv1).1 =
               [ (Server.ToSocket, Server.ev_drawEnd u i);
                 (Server.ToOthers, Server.ev_drawEnd u i) ] ∧
               ∃ op, last (committed (Server.drawingState
                        (Server.handle (Server.DrawEnd u) sv1).2) "default")
                     = Some op ∧ id op = i ∧ userId op = u).
  { destruct (drawing_currentOf _ _ _ Hd') as (l & op & Hc & Hop & Hi & Hu).
    destruct (endDraw_owner "default" u _ l Hc) as [E1 Hr].
    pose proof (endDraw_objs "default" u (Server.drawingState sv1)) as Eo.
    simpl. unfold Server.onDrawEnd, Server.roomId. revert E1 Hr Eo.
    destruct (endDraw _ _ _) as [o ds']. simpl. intros -> Hr Eo.
    assert (Hop' : deref ds' l = Some op) by (unfold deref; by rewrite Eo).
    rewrite (idOf_deref _ _ _ Hop'), Hi. split; [done|].
    exists op. split; [|done]. unfold committed, contents. rewrite Hr. simpl.
    rewrite omap_app. simpl. rewrite Hop'. simpl. apply last_snoc. }
  destruct He as [He Hlast].
  cbn [emitted]. rewrite emitted_app. fold sv1. cbn [emitted].
  rewrite Hs, He, app_nil_r. split; [|split].
  - apply Forall_app. split; [apply Forall_pair; by right|].
    apply Forall_app. split; [done|]. apply Forall_pair; by right.
  - by exists (emitted moves (Server.handle (Server.DrawStart u d i t) sv).2).
  - rewrite serve_cons, serve_app. fold sv1. apply Hlast.
Qed.

Lemma server_stroke_one_id_witness :
  let sv := Server.serve [ Server.Connect "s1" "#FF0000";
                           Server.Connect "s2" "#00FF00" ] Server.newServer in
  let moves := [ Server.DrawMove "s1" 1 1 "id-8" 2;
                 Server.CursorMove "s2" "#00FF00" 4 4;
                 Server.Connect "s3" "#0000FF";
                 Server.DrawMove "s1" 2 2 "id-9" 3;
                 Server.Disconnect "s2" ] in
  let stroke := Server.DrawStart "s1" (brushAt 0 0) "id-1" 1
                  :: moves ++ [Server.DrawEnd "s1"] in
  Forall (aboutStroke "id-1") (emitted stroke sv).
Proof.
  apply (server_stroke_one_id
           (Server.serve [ Server.Connect "s1" "#FF0000";
                           Server.Connect "s2" "#00FF00" ] Server.newServer)
           "s1" (brushAt 0 0) "id-1" 1
           [ Server.DrawMove "s1" 1 1 "id-8" 2;
             Server.CursorMove "s2" "#00FF00" 4 4;
             Server.Connect "s3" "#0000FF";
             Server.DrawMove "s1" 2 2 "id-9" 3;
             Server.Disconnect "s2" ]).
  vm_compute. reflexivity.
Defined.

(** * The client's copy *)


Lemma segments_cons op p q pts :
  Canvas.segments op (p :: q :: pts) =
  Canvas.drawSegment p q op ++ Canvas.segments op (q :: pts).
Proof. done. Qed.









Lemma insertByTimestamp_perm op l : Canvas.insertByTimestamp op l ≡ₚ op :: l.
Proof.
  induction l as [|o l IH]; [done|]. simpl.
  destruct (timestamp op <=? timestamp o)%Z; [done|].
  by rewrite IH, Permutation_swap.
Qed.

Lemma sortByTimestamp_perm l : Canvas.sortByTimestamp l ≡ₚ l.
Proof.
  induction l as [|op l IH]; [done|]. simpl.
  by rewrite insertByTimestamp_perm, IH.
Qed.

Lemma insertByTimestamp_sorted op l :
  StronglySorted byTimestamp l →
  StronglySorted byTimestamp (Canvas.insertByTimestamp op l).
Proof.
  induction 1 as [|o l Hl IH Ho]; simpl; [by repeat constructor|].
  destruct (Z.leb_spec (timestamp op) (timestamp o)).
  - constructor; [by constructor|]. constructor; [done|].
    eapply Forall_impl; [done|]. unfold byTimestamp. simpl. intros; lia.
  - constructor; [done|]. rewrite insertByTimestamp_perm.
    constructor; [|done]. unfold byTimestamp. lia.
Qed.

Lemma sortByTimestamp_sorted l :
  StronglySorted byTimestamp (Canvas.sortByTimestamp l).
Proof.
  induction l as [|op l IH]; [constructor|]. simpl.
  by apply insertByTimestamp_sorted.
Qed.

Lemma insertByTimestamp_stable t op l :
  StronglySorted byTimestamp l →
  filter (λ o, timestamp o = t) (Canvas.insertByTimestamp op l) =
  filter (λ o, timestamp o = t) (op :: l).
Proof.
  induction 1 as [|o l Hl IH Ho]; [done|]. simpl.
  destruct (Z.leb_spec (timestamp op) (timestamp o)); [done|].
  rewrite !filter_cons in *. rewrite IH.
  destruct (decide (timestamp o = t)), (decide (timestamp op = t)); try done.
  lia.
Qed.

Lemma sortByTimestamp_stable t l :
  filter (λ o, timestamp o = t) (Canvas.sortByTimestamp l) =
  filter (λ o, timestamp o = t) l.
Proof.
  induction l as [|op l IH]; [done|]. simpl.
  rewrite insertByTimestamp_stable by apply sortByTimestamp_sorted.
  by rewrite !filter_cons, IH.
Qed.

Lemma sortByTimestamp_unique l l' :
  NoDup (timestamp <$> l) → l ≡ₚ l' →
  Canvas.sortByTimestamp l = Canvas.sortByTimestamp l'.
Proof.
  intros Hnd Hp.
  apply (StronglySorted_unique_strong byTimestamp);
    [|apply sortByTimestamp_sorted..|by rewrite !sortByTimestamp_perm].
  intros o1 o2 H1 H2 Hle1 Hle2. unfold byTimestamp in *.
  rewrite sortByTimestamp_perm in H1. rewrite sortByTimestamp_perm, <- Hp in H2.
  apply list_elem_of_lookup in H1 as [j1 Hj1], H2 as [j2 Hj2].
  assert (j1 = j2) as <-; [|congruence].
  eapply (NoDup_lookup _ j1 j2 (timestamp o1) Hnd).
  - by rewrite list_lookup_fmap, Hj1.
  - rewrite list_lookup_fmap, Hj2. simpl. f_equal. lia.
Qed.

Lemma segments_short op pts :
  (length pts < 2)%nat → Canvas.segments op pts = [].
Proof. destruct pts as [|p [|q pts]]; simpl; [done..|lia]. Qed.

Lemma segments_length op pts :
  length (Canvas.segments op pts) = (length pts - 1)%nat.
Proof.
  induction pts as [|p [|q pts] IH]; [done..|].
  rewrite segments_cons, length_app, IH. unfold Canvas.drawSegment.
  destruct (String.eqb _ _); simpl; lia.
Qed.

Lemma redrawAll_eq cv :
  Canvas.redrawAll cv =
  Canvas.clearRect :: (Canvas.sortByTimestamp (Canvas.values cv) ≫= linesOf).
Proof.
  unfold Canvas.redrawAll, Canvas.clearCanvas. simpl. f_equal.
  induction (Canvas.sortByTimestamp (Canvas.values cv)) as [|op l IH]; [done|].
  rewrite !bind_cons, IH. f_equal. unfold linesOf.
  destruct (Nat.ltb_spec (length (points op)) 2); [|done].
  by rewrite segments_short.
Qed.

(** X22.  What [redrawAll] draws.  It clears the canvas and then draws
    every operation of the map once, line by line: the operations come by
    non-decreasing timestamp, those of equal timestamp in the order of the
    map; an operation of fewer than two points draws nothing, one of [n]
    points draws [n - 1] lines. *)
Theorem redrawAll_draws_in_time_order cv :
  ∃ sorted,
    Canvas.redrawAll cv = Canvas.clearRect :: (sorted ≫= linesOf) ∧
    sorted ≡ₚ Canvas.values cv ∧
    StronglySorted byTimestamp sorted ∧
    (∀ t, filter (λ o, timestamp o = t) sorted =
          filter (λ o, timestamp o = t) (Canvas.values cv)) ∧
    (∀ op, length (linesOf op) = (length (points op) - 1)%nat).
Proof.
  exists (Canvas.sortByTimestamp (Canvas.values cv)).
  split; [apply redrawAll_eq|]. split; [apply sortByTimestamp_perm|].
  split; [apply sortByTimestamp_sorted|].
  split; [intros; apply sortByTimestamp_stable|].
  intros. apply segments_length.
Qed.

Lemma map_delete_perm {V} k (v : V) (m : list (string * V)) :
  JsMap.map_get k m = Some v → m ≡ₚ (k, v) :: JsMap.map_delete k m.
Proof.
  induction m as [|[k' v'] m IH]; simpl; [done|].
  destruct (String.eqb_spec k' k) as [->|].
  - by intros [= ->].
  - intros H. by rewrite (IH H) at 1; rewrite Permutation_swap.
Qed.

Lemma map_delete_keys {V} k (m : list (string * V)) :
  NoDup m.*1 → k ∉ (JsMap.map_delete k m).*1.
Proof.
  induction m as [|[k' v'] m IH]; simpl.
  - intros _. apply not_elem_of_nil.
  - intros [Hk Hnd]%NoDup_cons. destruct (String.eqb_spec k' k) as [->|Hne].
    + done.
    + rewrite fmap_cons, not_elem_of_cons. split; [done|]. by apply IH.
Qed.

Lemma find_all_false {A} (P : A → bool) (a : list A) :
  (∀ v, v ∈ a → P v = false) → find P a = None.
Proof.
  induction a as [|v a IH]; intros H; [done|]. simpl.
  rewrite (H v) by left. apply IH. intros w Hw. apply H. by right.
Qed.

Lemma spliceOut_snoc l (a : list ref) :
  l ∉ a → Canvas.spliceOut l (a ++ [l]) = a.
Proof.
  induction a as [|v a IH]; simpl.
  - by rewrite Nat.eqb_refl.
  - rewrite not_elem_of_cons. intros [Hne Hl].
    destruct (Nat.eqb_spec v l); [congruence|]. by rewrite IH.
Qed.

(** X21.  Undo then redo on the client gives back the picture.  When the
    client's map holds an operation under an id, the operation carries that
    id and no undone operation does, [handleUndo] takes it out of the map
    onto [undoStack], and [handleRedo] of the same id takes it back: the
    undo stack is as before, the map holds the same operations (the redone
    one now last in the map's order), and, the timestamps of the map's
    operations being pairwise distinct, [handleRedo] redraws exactly what a
    redraw showed before the undo. *)
Theorem handleUndo_handleRedo_same_picture cv i l op :
  NoDup (Canvas.operations cv).*1 →
  JsMap.map_get i (Canvas.operations cv) = Some l →
  Canvas.deref cv l = Some op → id op = i →
  (∀ l' op', l' ∈ Canvas.undoStack cv → Canvas.deref cv l' = Some op' →
             id op' ≠ i) →
  let un := Canvas.handleUndo i cv in
  let re := Canvas.handleRedo i un.2 in
  JsMap.map_get i (Canvas.operations un.2) = None ∧
  Canvas.undoStack un.2 = Canvas.undoStack cv ++ [l] ∧
  Canvas.operations re.2 =
    JsMap.map_delete i (Canvas.operations cv) ++ [(i, l)] ∧
  Canvas.undoStack re.2 = Canvas.undoStack cv ∧
  Canvas.objs re.2 = Canvas.objs cv ∧
  Canvas.values re.2 ≡ₚ Canvas.values cv ∧
  (NoDup (timestamp <$> Canvas.values cv) → re.1 = Canvas.redrawAll cv).
Proof.
  intros Hnd Hg Hop Hi Hus un re.
  assert (Hk : i ∉ (JsMap.map_delete i (Canvas.operations cv)).*1)
    by by apply map_delete_keys.
  assert (Hl : l ∉ Canvas.undoStack cv).
  { intros Hin. by apply (Hus l op). }
  set (cv1 := {| Canvas.operations :=
                    JsMap.map_delete i (Canvas.operations cv);
                  Canvas.undoStack := Canvas.undoStack cv ++ [l];
                  Canvas.objs := Canvas.objs cv |}).
  set (cv2 := {| Canvas.operations :=
                    JsMap.map_delete i (Canvas.operations cv) ++ [(i, l)];
                  Canvas.undoStack := Canvas.undoStack cv;
                  Canvas.objs := Canvas.objs cv |}).
  assert (Eun : Canvas.handleUndo i cv = (Canvas.redrawAll cv1, cv1)).
  { unfold Canvas.handleUndo. by rewrite Hg. }
  assert (Ere : Canvas.handleRedo i cv1 = (Canvas.redrawAll cv2, cv2)).
  { unfold Canvas.handleRedo, Canvas.deref.
    cbn [Canvas.undoStack Canvas.operations Canvas.objs cv1].
    rewrite find_app, find_all_false.
    2:{ intros l' Hl'. destruct (Canvas.objs cv !! l') as [op'|] eqn:E; [|done].
        apply String.eqb_neq. by apply (Hus l' op'). }
    simpl. unfold Canvas.deref in Hop. unfold ref in *. rewrite Hop, Hi.
    rewrite String.eqb_refl.
    by rewrite spliceOut_snoc, map_set_new. }
  unfold re, un. rewrite Eun. cbn [fst snd]. rewrite Ere. cbn [fst snd].
  assert (Hp : Canvas.values cv2 ≡ₚ Canvas.values cv).
  { unfold Canvas.values, Canvas.deref. cbn [Canvas.operations Canvas.objs cv2].
    rewrite (map_delete_perm i l (Canvas.operations cv) Hg) at 2.
    by rewrite <- Permutation_cons_append. }
  split; [by apply map_get_None|]. repeat split; try done.
  intros Hts. rewrite !redrawAll_eq. f_equal. f_equal.
  symmetry. by apply sortByTimestamp_unique.
Qed.

Lemma handleUndo_handleRedo_same_picture_witness :
  let cv := (loadCanvasState
               [ withPoint (startOp "A" (brushAt 0 0) "id-1" 1)
                   {| x := 1; y := 1 |};
                 withPoint (startOp "B" (brushAt 5 5) "id-2" 2)
                   {| x := 6; y := 6 |} ]
               (λ n, Z.of_nat n)
               {| Canvas.operations := []; Canvas.undoStack := [];
                  Canvas.objs := [] |}).2 in
  (Canvas.handleRedo "id-1" (Canvas.handleUndo "id-1" cv).2).1 =
    Canvas.redrawAll cv ∧
  (Canvas.operations
     (Canvas.handleRedo "id-1" (Canvas.handleUndo "id-1" cv).2).2).*1 =
    ["id-2"; "id-1"].
Proof.
  destruct (handleUndo_handleRedo_same_picture
              (loadCanvasState
                 [ withPoint (startOp "A" (brushAt 0 0) "id-1" 1)
                     {| x := 1; y := 1 |};
                   withPoint (startOp "B" (brushAt 5 5) "id-2" 2)
                     {| x := 6; y := 6 |} ]
                 (λ n, Z.of_nat n)
                 {| Canvas.operations := []; Canvas.undoStack := [];
                    Canvas.objs := [] |}).2
              "id-1" 0%nat
              (asLoaded (withPoint (startOp "A" (brushAt 0 0) "id-1" 1)
                           {| x := 1; y := 1 |}) 0))
    as (_ & _ & H3 & _ & _ & _ & H7).
  - apply (bool_decide_unpack _). vm_compute. exact I.
  - vm_compute. reflexivity.
  - vm_compute. reflexivity.
  - reflexivity.
  - vm_compute. by intros ? ? ?%elem_of_nil.
  - split.
    + apply H7. apply (bool_decide_unpack _). vm_compute. exact I.
    + rewrite H3. vm_compute. reflexivity.
Defined.

(** X23.  [clear] cannot be taken back: right after it, [redo] returns
    [null] and changes nothing, [getOperation] finds no id, [getState]
    returns the empty array, and a second [clear] changes nothing. *)
Theorem clear_is_final ds r i :
  redo r (clear r ds) = (None, clear r ds) ∧
  getOperation r i (clear r ds) = (None, clear r ds) ∧
  getState r (clear r ds) = ([], clear r ds) ∧
  clear r (clear r ds) = clear r ds.
Proof.
  assert (Hst : states (clear r ds) !! r = Some emptyRoom).
  { unfold clear. destruct (getRoomState r ds) as [st ds1]. simpl.
    apply lookup_insert_eq. }
  unfold redo, getOperation, getState.
  rewrite (getRoomState_present _ _ _ Hst). repeat split.
  unfold clear at 1. rewrite (getRoomState_present _ _ _ Hst).
  unfold setRoomState. destruct (clear r ds) as [sts os]. simpl in *.
  f_equal. by apply insert_id.
Qed.
